(** * Time Tracker (src/src/App.jsx)

    A shallow embedding of the timer / entry state machine, of its
    persistence through [localStorage] and of the daily aggregation, with
    the properties of the specification that concern them.

    Conventions of the embedding.
    - A JavaScript string is the list of its UTF-16 code units.
    - The numbers the program handles are integers (readings of
      [Date.now()], and [Math.floor] of their differences); they are
      modelled in [Z], [Math.floor (x / 1000)] being [x / 1000] in [Z].
    - The React component is a state record, event handlers that read the
      state of the current render and queue state updates, a commit that
      applies the queue in order, and the effects that run after it.  The
      handle of the interval timer is not part of the state.
    - The state record is typed: it holds entries and sessions of the shape
      the program creates.  What [load] returns is a JavaScript value of
      any shape, and is modelled as such.
    - What the platform provides is either modelled after its standard
      ([JSON], [String.prototype.trim], the properties of
      [Object.prototype], the order of the properties of an object) or,
      where it depends on the locale and the engine, taken as a parameter
      (the calendar fields of an instant, [localeCompare], the source text
      of a built-in function). *)

From Stdlib Require Import ZArith NArith List Lia Bool String Ascii.
From Stdlib Require Import Decimal DecimalFacts DecimalZ DecimalPos Sorted.
From stdpp Require Import base option list gmap.

Set Warnings "-register-all".
Local Open Scope Z_scope.

(* ===================================================================== *)
(** ** JavaScript strings *)
(* ===================================================================== *)

Module Js.

Abbreviation jsstring := (list N).

(** The code units of an ASCII literal. *)
Definition lit (s : string) : jsstring :=
  List.map N_of_ascii (list_ascii_of_string s).

(** [WhiteSpace] and [LineTerminator] of ECMAScript, the code points that
    [String.prototype.trim] strips: TAB, LF, VT, FF, CR, SP, NBSP,
    U+1680, U+2000..U+200A, LS, PS, U+202F, U+205F, U+3000, U+FEFF. *)
Definition is_whitespace (c : N) : bool :=
  ((c =? 0x09) || (c =? 0x0A) || (c =? 0x0B) || (c =? 0x0C) || (c =? 0x0D)
   || (c =? 0x20) || (c =? 0xA0) || (c =? 0x1680)
   || ((0x2000 <=? c) && (c <=? 0x200A))
   || (c =? 0x2028) || (c =? 0x2029) || (c =? 0x202F) || (c =? 0x205F)
   || (c =? 0x3000) || (c =? 0xFEFF))%N.

Fixpoint trimStart (s : jsstring) : jsstring :=
  match s with
  | [] => []
  | c :: s' => if is_whitespace c then trimStart s' else s
  end.

Definition trimEnd (s : jsstring) : jsstring := rev (trimStart (rev s)).

(** [s.trim()] *)
Definition trim (s : jsstring) : jsstring := trimEnd (trimStart s).

(** A string in a condition: only the empty string is falsy. *)
Definition truthy_string (s : jsstring) : bool :=
  match s with [] => false | _ :: _ => true end.

(** *** Ordinary objects

    The own properties of an ordinary object, in the order in which
    [Object.entries], [for-in] and [JSON.stringify] visit them: the keys
    that are array indices first, in ascending numeric order, then the
    other keys in the order of their creation. *)

Definition digit_value (c : N) : option N :=
  if ((0x30 <=? c) && (c <=? 0x39))%N then Some (c - 0x30)%N else None.

Fixpoint digits_value (acc : N) (s : jsstring) : option N :=
  match s with
  | [] => Some acc
  | c :: s' =>
      match digit_value c with
      | Some d => digits_value (10 * acc + d)%N s'
      | None => None
      end
  end.

(** A key is an array index when it is the canonical decimal form of an
    integer between 0 and 2^32 - 2. *)
Definition array_index (k : jsstring) : option N :=
  match k with
  | [] => None
  | c :: r =>
      if ((c =? 0x30)%N && truthy_string r)%bool then None
      else match digits_value 0%N k with
           | Some n => if (n <? 4294967295)%N then Some n else None
           | None => None
           end
  end.

Section Objects.
Context {V : Type}.

Fixpoint own_get (k : jsstring) (o : list (jsstring * V)) : option V :=
  match o with
  | [] => None
  | (k', v) :: o' => if decide (k = k') then Some v else own_get k o'
  end.

(** Writing an existing own property keeps its place. *)
Fixpoint own_replace (k : jsstring) (v : V) (o : list (jsstring * V))
  : list (jsstring * V) :=
  match o with
  | [] => []
  | (k', v') :: o' =>
      if decide (k = k') then (k', v) :: o'
      else (k', v') :: own_replace k v o'
  end.

Fixpoint insert_index (n : N) (k : jsstring) (v : V) (o : list (jsstring * V))
  : list (jsstring * V) :=
  match o with
  | [] => [(k, v)]
  | (k', v') :: o' =>
      match array_index k' with
      | Some n' =>
          if (n <? n')%N then (k, v) :: o
          else (k', v') :: insert_index n k v o'
      | None => (k, v) :: o
      end
  end.

(** Defining the own data property [k] with value [v]. *)
Definition own_set (k : jsstring) (v : V) (o : list (jsstring * V))
  : list (jsstring * V) :=
  match own_get k o with
  | Some _ => own_replace k v o
  | None =>
      match array_index k with
      | Some n => insert_index n k v o
      | None => o ++ [(k, v)]
      end
  end.
End Objects.

(** *** Numbers to strings

    [Number::toString] of an integer: its decimal digits, after a minus
    sign when it is negative.  (JavaScript switches to exponent notation
    from 10^21 on; instants and durations stay far below.) *)

Fixpoint uint_units (d : Decimal.uint) : jsstring :=
  match d with
  | Nil => []
  | D0 d => 0x30%N :: uint_units d
  | D1 d => 0x31%N :: uint_units d
  | D2 d => 0x32%N :: uint_units d
  | D3 d => 0x33%N :: uint_units d
  | D4 d => 0x34%N :: uint_units d
  | D5 d => 0x35%N :: uint_units d
  | D6 d => 0x36%N :: uint_units d
  | D7 d => 0x37%N :: uint_units d
  | D8 d => 0x38%N :: uint_units d
  | D9 d => 0x39%N :: uint_units d
  end.

Definition number_units (z : Z) : jsstring :=
  match Z.to_int z with
  | Pos d => uint_units d
  | Neg d => 0x2D%N :: uint_units d
  end.

End Js.
Import Js.

(* ===================================================================== *)
(** ** The JSON codec of the platform *)
(* ===================================================================== *)

(** [JSON.stringify] (without indentation) and [JSON.parse] (without
    reviver), after ECMA-262 and ECMA-404.  A number written as a plain
    integer is its value in [Z]; the literal of a number written with a
    fraction or an exponent is kept as it stands and not interpreted. *)
Module Json.

Inductive json :=
| JNull
| JBool (b : bool)
| JNum (z : Z)
| JNumLit (t : jsstring)
| JStr (s : jsstring)
| JArr (l : list json)
| JObj (o : list (jsstring * json)).

(** **** Serialisation *)

Definition hex_digit (n : N) : N :=
  (if n <? 10 then 0x30 + n else 0x57 + n)%N.

(** [\uXXXX], lower-case hexadecimal *)
Definition unicode_escape (c : N) : jsstring :=
  [0x5C; 0x75; hex_digit ((c / 4096) mod 16); hex_digit ((c / 256) mod 16);
   hex_digit ((c / 16) mod 16); hex_digit (c mod 16)]%N.

Definition is_high_surrogate (c : N) : bool := ((0xD800 <=? c) && (c <=? 0xDBFF))%N.
Definition is_low_surrogate (c : N) : bool := ((0xDC00 <=? c) && (c <=? 0xDFFF))%N.

(** A code unit that is not half of a surrogate pair. *)
Definition quote_unit (c : N) : jsstring :=
  (if c =? 0x22 then [0x5C; 0x22]
   else if c =? 0x5C then [0x5C; 0x5C]
   else if c =? 0x08 then [0x5C; 0x62]
   else if c =? 0x0C then [0x5C; 0x66]
   else if c =? 0x0A then [0x5C; 0x6E]
   else if c =? 0x0D then [0x5C; 0x72]
   else if c =? 0x09 then [0x5C; 0x74]
   else if c <? 0x20 then unicode_escape c
   else if is_high_surrogate c || is_low_surrogate c then unicode_escape c
   else [c])%N.

Fixpoint quote_units (s : jsstring) : jsstring :=
  match s with
  | [] => []
  | c :: s' =>
      if is_high_surrogate c then
        match s' with
        | d :: s'' =>
            if is_low_surrogate d then c :: d :: quote_units s''
            else unicode_escape c ++ quote_units s'
        | [] => unicode_escape c
        end
      else quote_unit c ++ quote_units s'
  end.

(** [QuoteJSONString] *)
Definition quote (s : jsstring) : jsstring :=
  0x22%N :: quote_units s ++ [0x22%N].

Fixpoint stringify (v : json) : jsstring :=
  match v with
  | JNull => lit "null"
  | JBool true => lit "true"
  | JBool false => lit "false"
  | JNum z => number_units z
  | JNumLit t => t
  | JStr s => quote s
  | JArr l =>
      0x5B%N ::
      (fix elements (l : list json) : jsstring :=
         match l with
         | [] => []
         | [v] => stringify v
         | v :: l' => stringify v ++ 0x2C%N :: elements l'
         end) l ++ [0x5D%N]
  | JObj o =>
      0x7B%N ::
      (fix members (o : list (jsstring * json)) : jsstring :=
         match o with
         | [] => []
         | [(k, v)] => quote k ++ 0x3A%N :: stringify v
         | (k, v) :: o' => quote k ++ 0x3A%N :: stringify v ++ 0x2C%N :: members o'
         end) o ++ [0x7D%N]
  end.

(** **** Parsing *)

Definition is_json_ws (c : N) : bool :=
  ((c =? 0x20) || (c =? 0x09) || (c =? 0x0A) || (c =? 0x0D))%N.

Fixpoint skip_ws (s : jsstring) : jsstring :=
  match s with
  | [] => []
  | c :: s' => if is_json_ws c then skip_ws s' else s
  end.

(** [expect w s]: [s] without its prefix [w]. *)
Fixpoint expect (w s : jsstring) : option jsstring :=
  match w with
  | [] => Some s
  | a :: w' =>
      match s with
      | c :: s' => if (a =? c)%N then expect w' s' else None
      | [] => None
      end
  end.

Definition digit_of (c : N) : option (Decimal.uint -> Decimal.uint) :=
  (if c =? 0x30 then Some D0 else if c =? 0x31 then Some D1
   else if c =? 0x32 then Some D2 else if c =? 0x33 then Some D3
   else if c =? 0x34 then Some D4 else if c =? 0x35 then Some D5
   else if c =? 0x36 then Some D6 else if c =? 0x37 then Some D7
   else if c =? 0x38 then Some D8 else if c =? 0x39 then Some D9
   else None)%N.

Fixpoint scan_digits (s : jsstring) : Decimal.uint * jsstring :=
  match s with
  | [] => (Nil, [])
  | c :: s' =>
      match digit_of c with
      | Some d => let '(u, r) := scan_digits s' in (d u, r)
      | None => (Nil, s)
      end
  end.

(** The optional fraction: whether there is one, and what follows it. *)
Definition scan_fraction (s : jsstring) : option (bool * jsstring) :=
  match s with
  | c :: r =>
      if (c =? 0x2E)%N then
        match scan_digits r with
        | (Nil, _) => None
        | (_, r') => Some (true, r')
        end
      else Some (false, s)
  | [] => Some (false, s)
  end.

(** The optional exponent. *)
Definition scan_exponent (s : jsstring) : option (bool * jsstring) :=
  match s with
  | c :: r =>
      if ((c =? 0x65) || (c =? 0x45))%N then
        let r1 := match r with
                  | d :: r' => if ((d =? 0x2B) || (d =? 0x2D))%N then r' else r
                  | [] => r
                  end in
        match scan_digits r1 with
        | (Nil, _) => None
        | (_, r') => Some (true, r')
        end
      else Some (false, s)
  | [] => Some (false, s)
  end.

Definition parse_number (s : jsstring) : option (json * jsstring) :=
  let '(negative, s1) :=
    match s with
    | c :: r => if (c =? 0x2D)%N then (true, r) else (false, s)
    | [] => (false, s)
    end in
  let '(int_part, s2) := scan_digits s1 in
  match int_part with
  | Nil => None
  | D0 (D0 _ | D1 _ | D2 _ | D3 _ | D4 _ | D5 _ | D6 _ | D7 _ | D8 _ | D9 _) =>
      None
  | _ =>
      match scan_fraction s2 with
      | None => None
      | Some (has_fraction, s3) =>
          match scan_exponent s3 with
          | None => None
          | Some (has_exponent, s4) =>
              if (has_fraction || has_exponent)%bool
              then Some (JNumLit (firstn (length s - length s4) s), s4)
              else Some (JNum (if negative then - Z.of_uint int_part
                               else Z.of_uint int_part), s4)
          end
      end
  end.

Definition hex_value (c : N) : option N :=
  (if (0x30 <=? c) && (c <=? 0x39) then Some (c - 0x30)
   else if (0x61 <=? c) && (c <=? 0x66) then Some (c - 0x57)
   else if (0x41 <=? c) && (c <=? 0x46) then Some (c - 0x37)
   else None)%N.

Definition hex4_value (a b c d : N) : option N :=
  match hex_value a, hex_value b, hex_value c, hex_value d with
  | Some x, Some y, Some z, Some t => Some (4096 * x + 256 * y + 16 * z + t)%N
  | _, _, _, _ => None
  end.

(** The character a one-letter escape stands for. *)
Definition simple_escape (e : N) : option N :=
  (if e =? 0x22 then Some 0x22 else if e =? 0x5C then Some 0x5C
   else if e =? 0x2F then Some 0x2F else if e =? 0x62 then Some 0x08
   else if e =? 0x66 then Some 0x0C else if e =? 0x6E then Some 0x0A
   else if e =? 0x72 then Some 0x0D else if e =? 0x74 then Some 0x09
   else None)%N.

Definition prepend (c : N) (r : option (jsstring * jsstring))
  : option (jsstring * jsstring) :=
  match r with
  | Some (s, rest) => Some (c :: s, rest)
  | None => None
  end.

(** The characters of a string, after its opening quote. *)
Fixpoint parse_chars (s : jsstring) : option (jsstring * jsstring) :=
  match s with
  | [] => None
  | c :: r =>
      if (c =? 0x22)%N then Some ([], r)
      else if (c =? 0x5C)%N then
        match r with
        | e :: r1 =>
            if (e =? 0x75)%N then
              match r1 with
              | h1 :: h2 :: h3 :: h4 :: r2 =>
                  match hex4_value h1 h2 h3 h4 with
                  | Some u => prepend u (parse_chars r2)
                  | None => None
                  end
              | _ => None
              end
            else
              match simple_escape e with
              | Some u => prepend u (parse_chars r1)
              | None => None
              end
        | [] => None
        end
      else if (c <? 0x20)%N then None
      else prepend c (parse_chars r)
  end.

(** A value, the elements of an array after the first bracket, the
    members of an object after the first brace.  The first argument
    bounds the number of nested calls. *)
Fixpoint parse_value (n : nat) (s : jsstring) {struct n}
  : option (json * jsstring) :=
  match n with
  | O => None
  | S n' =>
      match skip_ws s with
      | [] => None
      | c :: r =>
          if (c =? 0x6E)%N then
            match expect (lit "ull") r with
            | Some r' => Some (JNull, r') | None => None
            end
          else if (c =? 0x74)%N then
            match expect (lit "rue") r with
            | Some r' => Some (JBool true, r') | None => None
            end
          else if (c =? 0x66)%N then
            match expect (lit "alse") r with
            | Some r' => Some (JBool false, r') | None => None
            end
          else if (c =? 0x22)%N then
            match parse_chars r with
            | Some (str, r') => Some (JStr str, r') | None => None
            end
          else if (c =? 0x5B)%N then
            match skip_ws r with
            | d :: r' =>
                if (d =? 0x5D)%N then Some (JArr [], r')
                else parse_elements n' [] (d :: r')
            | [] => None
            end
          else if (c =? 0x7B)%N then
            match skip_ws r with
            | d :: r' =>
                if (d =? 0x7D)%N then Some (JObj [], r')
                else parse_members n' [] (d :: r')
            | [] => None
            end
          else parse_number (c :: r)
      end
  end
with parse_elements (n : nat) (acc : list json) (s : jsstring) {struct n}
  : option (json * jsstring) :=
  match n with
  | O => None
  | S n' =>
      match parse_value n' s with
      | None => None
      | Some (v, r) =>
          match skip_ws r with
          | d :: r' =>
              if (d =? 0x2C)%N then parse_elements n' (acc ++ [v]) r'
              else if (d =? 0x5D)%N then Some (JArr (acc ++ [v]), r')
              else None
          | [] => None
          end
      end
  end
with parse_members (n : nat) (acc : list (jsstring * json)) (s : jsstring)
       {struct n} : option (json * jsstring) :=
  match n with
  | O => None
  | S n' =>
      match skip_ws s with
      | c :: r =>
          if (c =? 0x22)%N then
            match parse_chars r with
            | None => None
            | Some (k, r1) =>
                match skip_ws r1 with
                | d :: r2 =>
                    if (d =? 0x3A)%N then
                      match parse_value n' r2 with
                      | None => None
                      | Some (v, r3) =>
                          match skip_ws r3 with
                          | e :: r4 =>
                              if (e =? 0x2C)%N
                              then parse_members n' (own_set k v acc) r4
                              else if (e =? 0x7D)%N
                              then Some (JObj (own_set k v acc), r4)
                              else None
                          | [] => None
                          end
                      end
                    else None
                | [] => None
                end
            end
          else None
      | [] => None
      end
  end.

(** [JSON.parse(text)]; [None] stands for the [SyntaxError] it throws.
    Two nested calls consume at least one code unit, so that twice the
    length of the text bounds the nesting. *)
Definition JSON_parse (s : jsstring) : option json :=
  match parse_value (S (2 * length s)) s with
  | Some (v, r) => match skip_ws r with [] => Some v | _ :: _ => None end
  | None => None
  end.

Definition JSON_stringify (v : json) : jsstring := stringify v.

End Json.
Import Json.

(* ===================================================================== *)
(** ** Data model *)
(* ===================================================================== *)

(** The object literal built by [stopActiveJob]. *)
Record Entry := mkEntry {
  id : jsstring;
  jobNumber : jsstring;
  startTimestamp : Z;
  endTimestamp : Z;
  durationSeconds : Z;
  notes : jsstring
}.

(** [activeJob: { jobNumber, startTimestamp } | null]; the fields carry a
    prefix to tell them from those of [Entry]. *)
Record ActiveJob := mkActiveJob {
  activeJobNumber : jsstring;
  activeStartTimestamp : Z
}.

(** The [useState] cells of [App]. *)
Record State := mkState {
  entries : list Entry;
  activeJob : option ActiveJob;
  elapsed : Z;
  jobInput : jsstring;
  notesInput : jsstring
}.

(** *** The records as JavaScript values

    The object an [Entry] or an [ActiveJob] stands for, with its
    properties in the order of the object literal that creates it. *)

Definition entry_to_json (e : Entry) : json :=
  JObj [(lit "id", JStr (id e));
        (lit "jobNumber", JStr (jobNumber e));
        (lit "startTimestamp", JNum (startTimestamp e));
        (lit "endTimestamp", JNum (endTimestamp e));
        (lit "durationSeconds", JNum (durationSeconds e));
        (lit "notes", JStr (notes e))].

Definition entries_to_json (l : list Entry) : json :=
  JArr (List.map entry_to_json l).

Definition activeJob_to_json (a : ActiveJob) : json :=
  JObj [(lit "jobNumber", JStr (activeJobNumber a));
        (lit "startTimestamp", JNum (activeStartTimestamp a))].

(** The value of the [activeJob] cell: an object, or [null]. *)
Definition activeJob_value (o : option ActiveJob) : json :=
  match o with
  | Some a => activeJob_to_json a
  | None => JNull
  end.

(** The values that have the shape of the records, read back. *)
Definition entry_of_json (v : json) : option Entry :=
  match v with
  | JObj [(k1, JStr i); (k2, JStr j); (k3, JNum s); (k4, JNum e);
          (k5, JNum d); (k6, JStr n)] =>
      if decide (k1 = lit "id" ∧ k2 = lit "jobNumber"
                 ∧ k3 = lit "startTimestamp" ∧ k4 = lit "endTimestamp"
                 ∧ k5 = lit "durationSeconds" ∧ k6 = lit "notes")
      then Some (mkEntry i j s e d n) else None
  | _ => None
  end.

Fixpoint entry_list_of_json (l : list json) : option (list Entry) :=
  match l with
  | [] => Some []
  | v :: l' =>
      match entry_of_json v, entry_list_of_json l' with
      | Some e, Some es => Some (e :: es)
      | _, _ => None
      end
  end.

Definition entries_of_json (v : json) : option (list Entry) :=
  match v with
  | JArr l => entry_list_of_json l
  | _ => None
  end.

Definition activeJob_of_json (v : json) : option (option ActiveJob) :=
  match v with
  | JNull => Some None
  | JObj [(k1, JStr j); (k2, JNum s)] =>
      if decide (k1 = lit "jobNumber" ∧ k2 = lit "startTimestamp")
      then Some (Some (mkActiveJob j s)) else None
  | _ => None
  end.

(** What lies outside the component: the wall clock, the generator of
    identifiers, the user answering [window.confirm], and [localStorage].
    The k-th call of [Date.now()] returns [clock k], and so on. *)
Record World := mkWorld {
  clock : nat -> Z;
  reads : nat;
  uuids : nat -> jsstring;
  drawn : nat;
  answers : nat -> bool;
  asked : nat;
  localStorage : gmap jsstring jsstring
}.

Definition with_storage (ls : gmap jsstring jsstring) (w : World) : World :=
  mkWorld (clock w) (reads w) (uuids w) (drawn w) (answers w) (asked w) ls.

(** A queued state update: the argument of one [set...] call. *)
Inductive Update :=
| PrependEntry (e : Entry)          (* setEntries(prev => [entry, ...prev]) *)
| RemoveEntry (i : jsstring)        (* setEntries(prev => prev.filter(e => e.id !== id)) *)
| SetEntries (l : list Entry)       (* setEntries([]) *)
| SetActiveJob (a : option ActiveJob)
| SetElapsed (z : Z)
| SetJobInput (s : jsstring)
| SetNotesInput (s : jsstring).

(* ===================================================================== *)
(** ** The handler monad *)
(* ===================================================================== *)

(** A handler runs against the world and appends to the update queue. *)
Definition M (A : Type) : Type := World * list Update -> A * (World * list Update).

#[global] Instance M_ret : MRet M := fun A x s => (x, s).
#[global] Instance M_bind : MBind M :=
  fun A B f m s => let '(x, s') := m s in f x s'.

Definition Date_now : M Z := fun '(w, q) =>
  (clock w (reads w),
   (mkWorld (clock w) (S (reads w)) (uuids w) (drawn w) (answers w) (asked w)
            (localStorage w), q)).

Definition randomUUID : M jsstring := fun '(w, q) =>
  (uuids w (drawn w),
   (mkWorld (clock w) (reads w) (uuids w) (S (drawn w)) (answers w) (asked w)
            (localStorage w), q)).

Definition confirm : M bool := fun '(w, q) =>
  (answers w (asked w),
   (mkWorld (clock w) (reads w) (uuids w) (drawn w) (answers w) (S (asked w))
            (localStorage w), q)).

Definition enqueue (u : Update) : M unit := fun '(w, q) => (tt, (w, q ++ [u])).

(** A handler that returns at once. *)
Definition skip : M unit := mret tt.

(** [localStorage.setItem(key, text)] and [localStorage.removeItem(key)] *)
Definition setItem (key text : jsstring) : M unit := fun '(w, q) =>
  (tt, (with_storage (<[key := text]> (localStorage w)) w, q)).

Definition removeItem (key : jsstring) : M unit := fun '(w, q) =>
  (tt, (with_storage (delete key (localStorage w)) w, q)).

(* ===================================================================== *)
(** ** Persistence *)
(* ===================================================================== *)

Module STORAGE.
Definition ENTRIES : jsstring := Eval cbv in lit "tt_entries".
Definition ACTIVE : jsstring := Eval cbv in lit "tt_active".
End STORAGE.

(** The result of a block that may throw. *)
Inductive completion (A : Type) :=
| Normal (a : A)
| Thrown.
Arguments Normal {A} a.
Arguments Thrown {A}.

(** The body of the [try] block of [load]: [getItem] gives [null] for a
    missing key, [raw ? ... : fallback] takes the fallback for [null] and
    for the empty string, and [JSON.parse] throws on malformed text. *)
Definition load_try (key : jsstring) (fallback : json)
    (store : gmap jsstring jsstring) : completion json :=
  match store !! key with
  | None => Normal fallback
  | Some raw =>
      if truthy_string raw then
        match JSON_parse raw with
        | Some v => Normal v
        | None => Thrown
        end
      else Normal fallback
  end.

(** [load(key, fallback)]: the [catch] clause returns the fallback. *)
Definition load (key : jsstring) (fallback : json)
    (store : gmap jsstring jsstring) : json :=
  match load_try key fallback store with
  | Normal v => v
  | Thrown => fallback
  end.

(** The initial values of the two persisted cells,
    [useState(() => load(STORAGE.ENTRIES, []))] and
    [useState(() => load(STORAGE.ACTIVE, null))]. *)
Definition initial_entries (store : gmap jsstring jsstring) : json :=
  load STORAGE.ENTRIES (JArr []) store.

Definition initial_activeJob (store : gmap jsstring jsstring) : json :=
  load STORAGE.ACTIVE JNull store.

(* ===================================================================== *)
(** ** Event handlers *)
(* ===================================================================== *)

Module App.

(** [stopActiveJob(notes)], reading [activeJob] of the current render. *)
Definition stopActiveJob (st : State) (notes : jsstring) : M (option Entry) :=
  match activeJob st with
  | None => mret None
  | Some a =>
      now ← Date_now;
      let durationSeconds := (now - activeStartTimestamp a) / 1000 in
      uuid ← randomUUID;
      let entry :=
        {| id := uuid;
           jobNumber := activeJobNumber a;
           startTimestamp := activeStartTimestamp a;
           endTimestamp := now;
           durationSeconds := durationSeconds;
           notes := trim notes |} in
      _ ← enqueue (PrependEntry entry);
      _ ← enqueue (SetActiveJob None);
      mret (Some entry)
  end.

Definition handleStart (st : State) : M unit :=
  let job := trim (jobInput st) in
  if negb (truthy_string job) then skip
  else
    _ ← (match activeJob st with
         | Some _ => _ ← stopActiveJob st (notesInput st); skip
         | None => skip
         end);
    now ← Date_now;
    _ ← enqueue (SetActiveJob (Some {| activeJobNumber := job;
                                       activeStartTimestamp := now |}));
    enqueue (SetNotesInput []).

Definition handleStop (st : State) : M unit :=
  _ ← stopActiveJob st (notesInput st);
  enqueue (SetNotesInput []).

Definition handleDelete (i : jsstring) (st : State) : M unit :=
  enqueue (RemoveEntry i).

Definition handleClearAll (st : State) : M unit :=
  ok ← confirm;
  if (ok : bool) then
    _ ← enqueue (SetEntries []);
    _ ← enqueue (SetActiveJob None);
    enqueue (SetNotesInput [])
  else skip.

(** The two [onChange] handlers of the form. *)
Definition changeJobInput (s : jsstring) (st : State) : M unit :=
  enqueue (SetJobInput s).

Definition changeNotesInput (s : jsstring) (st : State) : M unit :=
  enqueue (SetNotesInput s).

End App.

(* ===================================================================== *)
(** ** Commit and effects *)
(* ===================================================================== *)

Module React.

Definition apply_update (st : State) (u : Update) : State :=
  match u with
  | PrependEntry e =>
      mkState (e :: entries st) (activeJob st) (elapsed st) (jobInput st)
              (notesInput st)
  | RemoveEntry i =>
      mkState (List.filter (fun e => negb (bool_decide (id e = i))) (entries st))
              (activeJob st) (elapsed st) (jobInput st) (notesInput st)
  | SetEntries l =>
      mkState l (activeJob st) (elapsed st) (jobInput st) (notesInput st)
  | SetActiveJob a =>
      mkState (entries st) a (elapsed st) (jobInput st) (notesInput st)
  | SetElapsed z =>
      mkState (entries st) (activeJob st) z (jobInput st) (notesInput st)
  | SetJobInput s =>
      mkState (entries st) (activeJob st) (elapsed st) s (notesInput st)
  | SetNotesInput s =>
      mkState (entries st) (activeJob st) (elapsed st) (jobInput st) s
  end.

(** The queued updates are applied in the order of the calls. *)
Definition commit (q : list Update) (st : State) : State :=
  fold_left apply_update q st.

(** Whether a dependency of an effect has changed.  Every call of
    [setEntries] passes a new array; [setActiveJob] passes either a new
    object or [null], and [null] is no change when the cell held [null]. *)
Definition sets_entries (u : Update) : bool :=
  match u with
  | PrependEntry _ | RemoveEntry _ | SetEntries _ => true
  | _ => false
  end.

Definition sets_activeJob (u : Update) : bool :=
  match u with SetActiveJob _ => true | _ => false end.

Definition entries_changed (q : list Update) : bool := existsb sets_entries q.

Definition is_null (a : option ActiveJob) : bool :=
  match a with None => true | Some _ => false end.

Definition activeJob_changed (old new : State) (q : list Update) : bool :=
  existsb sets_activeJob q
  && negb (is_null (activeJob old) && is_null (activeJob new)).

(** [useEffect(..., [entries])] *)
Definition persist_entries (st : State) : M unit :=
  setItem STORAGE.ENTRIES (JSON_stringify (entries_to_json (entries st))).

(** [useEffect(..., [activeJob])], persistence *)
Definition persist_activeJob (st : State) : M unit :=
  match activeJob st with
  | Some a => setItem STORAGE.ACTIVE (JSON_stringify (activeJob_to_json a))
  | None => removeItem STORAGE.ACTIVE
  end.

(** [tick] of the live timer *)
Definition tick (a : ActiveJob) : M unit :=
  now ← Date_now;
  enqueue (SetElapsed ((now - activeStartTimestamp a) / 1000)).

(** [useEffect(..., [activeJob])], live timer: one [tick] at once (the
    later ones are the events [interval]), or the reading set to 0. *)
Definition live_timer (st : State) : M unit :=
  match activeJob st with
  | Some a => tick a
  | None => enqueue (SetElapsed 0)
  end.

Definition run_effects (entries_dep activeJob_dep : bool) (st : State) : M unit :=
  _ ← (if entries_dep then persist_entries st else skip);
  if activeJob_dep then (_ ← persist_activeJob st; live_timer st) else skip.

(** One event: the handler runs on the state of the current render, the
    queue is committed, the effects whose dependency changed run, and the
    reading they set is committed in turn. *)
Definition dispatch (h : State -> M unit) (sw : State * World) : State * World :=
  let '(st, w) := sw in
  let '(_, (w1, q)) := h st (w, []) in
  let st1 := commit q st in
  let '(_, (w2, q2)) :=
    run_effects (entries_changed q) (activeJob_changed st st1 q) st1 (w1, []) in
  (commit q2 st1, w2).

(** The callback of [setInterval(tick, 1000)]. *)
Definition interval (st : State) : M unit :=
  match activeJob st with
  | Some a => tick a
  | None => skip
  end.

(** The first render: the cells are initialised from the store and every
    effect runs.  Values that do not have the shape of the records are
    outside the typed state. *)
Definition mount (w : World) : option (State * World) :=
  match entries_of_json (initial_entries (localStorage w)),
        activeJob_of_json (initial_activeJob (localStorage w)) with
  | Some es, Some a =>
      let st := mkState es a 0 [] [] in
      let '(_, (w1, q)) := run_effects true true st (w, []) in
      Some (commit q st, w1)
  | _, _ => None
  end.

(** The persistence effects alone, on a store. *)
Definition persist (st : State) (w : World) : World :=
  fst (snd ((_ ← persist_entries st; persist_activeJob st) (w, []))).

(** The events the component reacts to. *)
Inductive Event :=
| Start
| Stop
| Delete (i : jsstring)
| ClearAll
| TypeJob (s : jsstring)
| TypeNotes (s : jsstring)
| Interval.

Definition handler (ev : Event) : State -> M unit :=
  match ev with
  | Start => App.handleStart
  | Stop => App.handleStop
  | Delete i => App.handleDelete i
  | ClearAll => App.handleClearAll
  | TypeJob s => App.changeJobInput s
  | TypeNotes s => App.changeNotesInput s
  | Interval => interval
  end.

Definition step (ev : Event) (sw : State * World) : State * World :=
  dispatch (handler ev) sw.

End React.

(* ===================================================================== *)
(** ** Derived data *)
(* ===================================================================== *)

(** What [map[key]] can yield when [map] starts as [{}] and only the sums
    below are stored in it: a number, a string, a built-in function or the
    object [Object.prototype]. *)
Inductive value :=
| VNum (z : Z)
| VStr (s : jsstring)
| VFunction (name : jsstring)
| VObjectPrototype.

(** The properties an object literal inherits from [Object.prototype]
    (ECMA-262, with its annex B): [__proto__] is an accessor whose getter
    returns the prototype; [constructor] is the function [Object]; the
    others are functions of their own name. *)
Definition Object_prototype_methods : list jsstring :=
  Eval cbv in
    List.map lit ["hasOwnProperty"; "isPrototypeOf"; "propertyIsEnumerable";
                  "toLocaleString"; "toString"; "valueOf";
                  "__defineGetter__"; "__defineSetter__";
                  "__lookupGetter__"; "__lookupSetter__"]%string.

Definition Object_prototype_get (k : jsstring) : option value :=
  if decide (k = lit "__proto__") then Some VObjectPrototype
  else if decide (k = lit "constructor") then Some (VFunction (lit "Object"))
  else if decide (k ∈ Object_prototype_methods) then Some (VFunction k)
  else None.

(** The platform: the fields of an instant in local time ([None] stands
    for the [NaN] of an invalid date), the collation of strings, and the
    source text the engine shows for a built-in function. *)
Class Platform := {
  getFullYear : Z -> option Z;
  getMonth : Z -> option Z;
  getDate : Z -> option Z;
  localeCompare : jsstring -> jsstring -> Z;
  nativeSource : jsstring -> jsstring
}.

Section Aggregator.

Context {platform : Platform}.

(** [a === b] on numbers: [NaN] equals nothing. *)
Definition strict_equal (a b : option Z) : bool :=
  match a, b with
  | Some x, Some y => x =? y
  | _, _ => false
  end.

(** [isToday(ts)], [now] being the instant [new Date()] returns; the
    calls of one render are taken to read the same day. *)
Definition isToday (now ts : Z) : bool :=
  strict_equal (getFullYear ts) (getFullYear now)
  && strict_equal (getMonth ts) (getMonth now)
  && strict_equal (getDate ts) (getDate now).

Definition todayEntries (now : Z) (es : list Entry) : list Entry :=
  List.filter (fun e => isToday now (startTimestamp e)) es.

(** [todayEntries.reduce((sum, e) => sum + e.durationSeconds, 0)] *)
Definition dailyTotal (now : Z) (es : list Entry) : Z :=
  fold_left (fun sum e => sum + durationSeconds e) (todayEntries now es) 0.

(** [map[key]]: the own property, else the inherited one. *)
Definition get (map : list (jsstring * value)) (k : jsstring) : option value :=
  match own_get k map with
  | Some v => Some v
  | None => Object_prototype_get k
  end.

Definition truthy (v : value) : bool :=
  match v with
  | VNum z => negb (z =? 0)
  | VStr s => truthy_string s
  | VFunction _ | VObjectPrototype => true
  end.

(** [x || 0], [None] being [undefined] *)
Definition or_zero (x : option value) : value :=
  match x with
  | Some v => if truthy v then v else VNum 0
  | None => VNum 0
  end.

(** [a + d] for a number [d]: a sum of numbers, or else the
    concatenation of the strings both operands convert to. *)
Definition add (a : value) (d : Z) : value :=
  match a with
  | VNum z => VNum (z + d)
  | VStr s => VStr (s ++ number_units d)
  | VFunction f => VStr (nativeSource f ++ number_units d)
  | VObjectPrototype => VStr (lit "[object Object]" ++ number_units d)
  end.

(** [map[key] = v] for a primitive [v]: an own property is overwritten;
    the inherited setter of [__proto__] ignores a primitive; any other
    key becomes a new own property. *)
Definition assign (map : list (jsstring * value)) (k : jsstring) (v : value)
  : list (jsstring * value) :=
  match own_get k map with
  | Some _ => own_replace k v map
  | None => if decide (k = lit "__proto__") then map else own_set k v map
  end.

(** The body of the [forEach] of [jobTotals]. *)
Definition accumulate (map : list (jsstring * value)) (e : Entry)
  : list (jsstring * value) :=
  assign map (jobNumber e)
         (add (or_zero (get map (jobNumber e))) (durationSeconds e)).

(** [Array.prototype.sort] is stable; by insertion. *)
Fixpoint insert_sorted {A} (cmp : A -> A -> Z) (x : A) (l : list A) : list A :=
  match l with
  | [] => [x]
  | y :: l' => if cmp x y <=? 0 then x :: l else y :: insert_sorted cmp x l'
  end.

Definition sort {A} (cmp : A -> A -> Z) (l : list A) : list A :=
  fold_right (insert_sorted cmp) [] l.

(** [Object.entries(map).sort(([a], [b]) => a.localeCompare(b))] *)
Definition jobTotals (now : Z) (es : list Entry) : list (jsstring * value) :=
  sort (fun a b => localeCompare (fst a) (fst b))
       (fold_left accumulate (todayEntries now es) []).

End Aggregator.

(* ===================================================================== *)
(** ** Sample platforms and states, for the examples *)
(* ===================================================================== *)

Module Sample.

(** Days since the epoch to year, month (1-12) and day, in the proleptic
    Gregorian calendar. *)
Definition civil_from_days (days : Z) : Z * Z * Z :=
  let z := days + 719468 in
  let era := z / 146097 in
  let doe := z - era * 146097 in
  let yoe := (doe - doe / 1460 + doe / 36524 - doe / 146096) / 365 in
  let doy := doe - (365 * yoe + yoe / 4 - yoe / 100) in
  let mp := (5 * doy + 2) / 153 in
  let d := doy - (153 * mp + 2) / 5 + 1 in
  let m := if mp <? 10 then mp + 3 else mp - 9 in
  (if m <=? 2 then yoe + era * 400 + 1 else yoe + era * 400, m, d).

(** A platform whose local time zone is UTC. *)
Definition utc (ts : Z) : option (Z * Z * Z) :=
  if Z.abs ts <=? 8640000000000000
  then Some (civil_from_days (ts / 86400000)) else None.

Definition utc_year (ts : Z) : option Z :=
  match utc ts with Some (y, _, _) => Some y | None => None end.
Definition utc_month (ts : Z) : option Z :=
  match utc ts with Some (_, m, _) => Some (m - 1) | None => None end.
Definition utc_date (ts : Z) : option Z :=
  match utc ts with Some (_, _, d) => Some d | None => None end.

(** A collation that compares the code units from left to right. *)
Fixpoint compare_units (a b : jsstring) : Z :=
  match a, b with
  | [], [] => 0
  | [], _ :: _ => -1
  | _ :: _, [] => 1
  | x :: a', y :: b' =>
      if (x <? y)%N then -1 else if (y <? x)%N then 1 else compare_units a' b'
  end.

(** The source text one engine shows for a built-in function. *)
Definition native_source (name : jsstring) : jsstring :=
  lit "function " ++ name ++ lit "() { [native code] }".

(** UTC, comparison by code units, and that source text. *)
Definition platform : Platform :=
  {| getFullYear := utc_year;
     getMonth := utc_month;
     getDate := utc_date;
     localeCompare := compare_units;
     nativeSource := native_source |}.

Definition world (store : gmap jsstring jsstring) : World :=
  {| clock := fun k => 1700000000000 + 60000 * Z.of_nat k;
     reads := 0;
     uuids := fun k => lit "id-" ++ number_units (Z.of_nat k);
     drawn := 0;
     answers := fun _ => true;
     asked := 0;
     localStorage := store |}.

(** A session of JOB-1 is running, JOB-2 is typed in the form. *)
Definition running : State :=
  {| entries := [];
     activeJob := Some {| activeJobNumber := lit "JOB-1";
                          activeStartTimestamp := 1699999940000 |};
     elapsed := 0;
     jobInput := lit " JOB-2 ";
     notesInput := lit "wiring " |}.

(** The same, the session having started after the next reading of the
    clock (the clock was set back in between). *)
Definition started_later : State :=
  {| entries := [];
     activeJob := Some {| activeJobNumber := lit "JOB-1";
                          activeStartTimestamp := 1700000003000 |};
     elapsed := 0;
     jobInput := [];
     notesInput := [] |}.

(** An entry of five minutes for the job [__proto__], and an instant of
    the same day. *)
Definition proto_entry : Entry :=
  {| id := lit "id-0";
     jobNumber := lit "__proto__";
     startTimestamp := 1700000000000;
     endTimestamp := 1700000300000;
     durationSeconds := 300;
     notes := [] |}.

Definition later_that_day : Z := 1700000400000.

Definition blank : State :=
  {| entries := []; activeJob := None; elapsed := 0;
     jobInput := [0x20; 0x09; 0x3000]%N; notesInput := [] |}.

End Sample.

(* ===================================================================== *)
(** ** Definitions used in the statements *)
(* ===================================================================== *)

(** The entry a session [a] is closed into, at the instant [now], under the
    identifier [uuid] and with the note [notes]. *)
Definition closed_entry (a : ActiveJob) (now : Z) (uuid notes : jsstring) : Entry :=
  {| id := uuid;
     jobNumber := activeJobNumber a;
     startTimestamp := activeStartTimestamp a;
     endTimestamp := now;
     durationSeconds := (now - activeStartTimestamp a) / 1000;
     notes := trim notes |}.

(** The world after one reading of the clock and one identifier drawn. *)
Definition after_stop (w : World) : World :=
  mkWorld (clock w) (S (reads w)) (uuids w) (S (drawn w)) (answers w) (asked w)
          (localStorage w).

(** What may follow a value inside a text: nothing, a comma, or a closing
    bracket or brace. *)
Definition delimited (rest : jsstring) : Prop :=
  match rest with
  | [] => True
  | c :: _ => c = 0x2C%N \/ c = 0x5D%N \/ c = 0x7D%N
  end.

(** The digits of an integer part that JSON admits: a single zero, or
    digits that do not start with a zero. *)
Definition canonical (d : Decimal.uint) : Prop :=
  match d with
  | Nil => False
  | D0 Nil => True
  | D0 _ => False
  | _ => True
  end.

(** The text of the elements of an array and of the members of an object,
    between the brackets. *)
Fixpoint elements_text (l : list json) : jsstring :=
  match l with
  | [] => []
  | v :: l' =>
      match l' with
      | [] => stringify v
      | _ :: _ => stringify v ++ 0x2C%N :: elements_text l'
      end
  end.

Fixpoint members_text (o : list (jsstring * json)) : jsstring :=
  match o with
  | [] => []
  | (k, v) :: o' =>
      match o' with
      | [] => quote k ++ 0x3A%N :: stringify v
      | _ :: _ => quote k ++ 0x3A%N :: stringify v ++ 0x2C%N :: members_text o'
      end
  end.

(** Keys that are pairwise distinct and of which none is an array index:
    such properties are enumerated in the order of their creation. *)
Definition simple_keys (ks : list jsstring) : Prop :=
  NoDup ks /\ Forall (fun k => array_index k = None) ks.

(** The values on which serialising and parsing are inverse of each other
    in this model: no number kept as a literal, and objects with simple
    keys. *)
Fixpoint plain (v : json) : Prop :=
  match v with
  | JNumLit _ => False
  | JArr l =>
      (fix all (l : list json) : Prop :=
         match l with [] => True | v :: l' => plain v /\ all l' end) l
  | JObj o =>
      simple_keys (List.map fst o)
      /\ (fix all (o : list (jsstring * json)) : Prop :=
            match o with [] => True | (_, v) :: o' => plain v /\ all o' end) o
  | _ => True
  end.

(** A bound on the nested calls the parser makes on the text of a value. *)
Fixpoint jsize (v : json) : nat :=
  match v with
  | JArr l =>
      S ((fix sum (l : list json) : nat :=
            match l with [] => O | v :: l' => S (jsize v + sum l') end) l)
  | JObj o =>
      S ((fix sum (o : list (jsstring * json)) : nat :=
            match o with [] => O | (_, v) :: o' => S (jsize v + sum o') end) o)
  | _ => 1%nat
  end.

Definition elements_size (l : list json) : nat :=
  fold_right (fun v n => S (jsize v + n)) O l.

Definition members_size (o : list (jsstring * json)) : nat :=
  fold_right (fun kv n => S (jsize (snd kv) + n)) O o.

(** Parsing the text of [v], whatever delimiter follows it, gives [v]. *)
Definition roundtrips (v : json) : Prop :=
  plain v -> forall n rest, (jsize v <= n)%nat -> delimited rest ->
  parse_value n (stringify v ++ rest) = Some (v, rest).

(** One member read by the parser. *)
Definition set_member (acc : list (jsstring * json)) (kv : jsstring * json)
  : list (jsstring * json) :=
  own_set (fst kv) (snd kv) acc.


(** The record under [key] does not decode: it is missing, empty, or not
    the text of a JSON value. *)
Definition undecodable (store : gmap jsstring jsstring) (key : jsstring) : Prop :=
  forall raw, store !! key = Some raw -> JSON_parse raw = None.

Section DayStatements.

Context {platform : Platform}.

(** The instant [ts] falls on the local calendar day of [now]: same
    year, month and day of the month, none of them [NaN]. *)
Definition same_local_day (now ts : Z) : Prop :=
  is_Some (getFullYear now) /\ is_Some (getMonth now) /\ is_Some (getDate now)
  /\ getFullYear ts = getFullYear now
  /\ getMonth ts = getMonth now
  /\ getDate ts = getDate now.

#[global] Instance same_local_day_dec now ts : Decision (same_local_day now ts).
Proof. unfold same_local_day. apply _. Defined.

(** The seconds of the entries that start on the day of [now]. *)
Fixpoint total_on_day (now : Z) (es : list Entry) : Z :=
  match es with
  | [] => 0
  | e :: es' =>
      if decide (same_local_day now (startTimestamp e))
      then durationSeconds e + total_on_day now es'
      else total_on_day now es'
  end.

(** The seconds of the entries of the job [k] that start on the day of
    [now]. *)
Fixpoint job_total_on_day (now : Z) (k : jsstring) (es : list Entry) : Z :=
  match es with
  | [] => 0
  | e :: es' =>
      if decide (same_local_day now (startTimestamp e) /\ jobNumber e = k)
      then durationSeconds e + job_total_on_day now k es'
      else job_total_on_day now k es'
  end.

End DayStatements.

(** The seconds of the entries of the job [k] in a list, and what a
    summary of the list holds under the key [k]. *)
Fixpoint job_seconds (k : jsstring) (l : list Entry) : Z :=
  match l with
  | [] => 0
  | e :: l' =>
      (if decide (jobNumber e = k) then durationSeconds e else 0)
      + job_seconds k l'
  end.

Definition summary_of (l : list Entry) (k : jsstring) : option value :=
  if decide (k ∈ List.map jobNumber l) then Some (VNum (job_seconds k l)) else None.

(** The job number is not the name of a property of [Object.prototype]. *)
Definition own_name (e : Entry) : Prop := Object_prototype_get (jobNumber e) = None.

(** The sum of the totals of a summary, when they all are numbers. *)
Fixpoint sum_totals (l : list (jsstring * value)) : option Z :=
  match l with
  | [] => Some 0
  | (_, VNum z) :: l' =>
      match sum_totals l' with Some t => Some (z + t) | None => None end
  | _ :: _ => None
  end.

(** A comparator that orders: any two strings compare one way or the
    other, and transitively. *)
Definition consistent (cmp : jsstring -> jsstring -> Z) : Prop :=
  (forall a b, cmp a b <= 0 \/ cmp b a <= 0)
  /\ (forall a b c, cmp a b <= 0 -> cmp b c <= 0 -> cmp a c <= 0).

Arguments JSON_stringify : simpl never.
Arguments entries_to_json : simpl never.
Arguments activeJob_to_json : simpl never.

(* ===================================================================== *)
(** ** Formatting and the controls of the form *)
(* ===================================================================== *)

(** [s.padStart(n, pad)]: nothing is added to a string that has [n] code
    units already, nor with an empty [pad]; else [pad] is repeated in front,
    cut to the missing length. *)
Definition padStart (n : nat) (pad s : jsstring) : jsstring :=
  if (n <=? length s)%nat then s
  else if truthy_string pad
       then firstn (n - length s) (concat (repeat pad (n - length s))) ++ s
       else s.

(** [parts.join(sep)] *)
Fixpoint join (sep : jsstring) (parts : list jsstring) : jsstring :=
  match parts with
  | [] => []
  | p :: ps =>
      match ps with
      | [] => p
      | _ :: _ => p ++ sep ++ join sep ps
      end
  end.

(** [formatDuration(totalSeconds)] for an integer: [%] is the remainder
    that has the sign of the dividend, [String(v)] the decimal digits. *)
Definition formatDuration (totalSeconds : Z) : jsstring :=
  let h := totalSeconds / 3600 in
  let m := Z.rem totalSeconds 3600 / 60 in
  let s := Z.rem totalSeconds 60 in
  join (lit ":")
       (List.map (fun v => padStart 2 (lit "0") (number_units v)) [h; m; s]).

(** [const isRunning = !!activeJob] *)
Definition isRunning (st : State) : bool := negb (React.is_null (activeJob st)).

(** The attribute [disabled={!jobInput.trim()}] of the start button. *)
Definition startDisabled (st : State) : bool :=
  negb (truthy_string (trim (jobInput st))).

(** The events of a list, one after the other. *)
Definition run (evs : list React.Event) (sw : State * World) : State * World :=
  fold_left (fun sw ev => React.step ev sw) evs sw.

(** *** Predicates of the statements *)

(** A code unit that is a decimal digit. *)
Definition is_digit (c : N) : Prop := (0x30 <= c <= 0x39)%N.


(** A string that [trim] leaves as it is. *)
Definition trimmed (s : jsstring) : Prop := trim s = s.

(** Job numbers are not empty and trimmed, notes are trimmed. *)
Definition tidy_entry (e : Entry) : Prop :=
  jobNumber e <> [] /\ trimmed (jobNumber e) /\ trimmed (notes e).

Definition tidy (st : State) : Prop :=
  Forall tidy_entry (entries st)
  /\ (forall a, activeJob st = Some a ->
                activeJobNumber a <> [] /\ trimmed (activeJobNumber a)).

(** The identifiers of the entries are pairwise distinct, and those the
    generator has yet to give are new and pairwise distinct. *)
Definition fresh_ids (sw : State * World) : Prop :=
  NoDup (List.map id (entries (fst sw)))
  /\ (forall k, (drawn (snd sw) <= k)%nat ->
                uuids (snd sw) k ∉ List.map id (entries (fst sw)))
  /\ (forall k k', (drawn (snd sw) <= k < k')%nat ->
                   uuids (snd sw) k <> uuids (snd sw) k').


(** States and events for the examples of this part. *)
Module Scenario.

(** Nothing logged, no session, an empty form. *)
Definition fresh : State :=
  {| entries := []; activeJob := None; elapsed := 0;
     jobInput := []; notesInput := [] |}.

Definition first : Entry :=
  {| id := lit "id-0";
     jobNumber := lit "JOB-1";
     startTimestamp := 1700000000000;
     endTimestamp := 1700000300000;
     durationSeconds := 300;
     notes := [] |}.

Definition second : Entry :=
  {| id := lit "id-1";
     jobNumber := lit "JOB-2";
     startTimestamp := 1700000300000;
     endTimestamp := 1700000900000;
     durationSeconds := 600;
     notes := lit "wiring" |}.

(** Two entries, the newest first, and no session. *)
Definition logged : State :=
  {| entries := [second; first]; activeJob := None; elapsed := 0;
     jobInput := []; notesInput := [] |}.

(** A job is typed with spaces around it and started, a note is typed,
    another job is typed and started, and that one is stopped. *)
Definition session : list React.Event :=
  [React.TypeJob (lit "  JOB-1 "); React.Start;
   React.TypeNotes (lit " wiring  "); React.TypeJob (lit "JOB-2"); React.Start;
   React.Interval; React.Stop].

End Scenario.

(* ===================================================================== *)
(** * Properties *)
(* ===================================================================== *)

Import App React.

(** ** Trimming *)

Lemma trimStart_blank (s : jsstring) :
  Forall (fun c => is_whitespace c = true) s -> trimStart s = [].
Proof.
  induction 1 as [|c s Hc _ IH]; simpl; [reflexivity|].
  now rewrite Hc.
Qed.

Lemma trim_blank (s : jsstring) :
  Forall (fun c => is_whitespace c = true) s -> trim s = [].
Proof.
  intros H. unfold trim, trimEnd. now rewrite (trimStart_blank s H).
Qed.

Lemma trimStart_nil_blank (s : jsstring) :
  trimStart s = [] -> Forall (fun c => is_whitespace c = true) s.
Proof.
  induction s as [|c s IH]; simpl; [constructor|].
  destruct (is_whitespace c) eqn:Hc; [|discriminate].
  intros H. constructor; auto.
Qed.

(** A string trims to the empty string exactly when it is blank. *)
Lemma trim_nil_iff (s : jsstring) :
  trim s = [] <-> Forall (fun c => is_whitespace c = true) s.
Proof.
  split; [|apply trim_blank].
  unfold trim, trimEnd. intros H.
  apply (f_equal (@rev N)) in H. rewrite rev_involutive in H. simpl in H.
  apply trimStart_nil_blank in H.
  assert (Hs : Forall (fun c => is_whitespace c = true) (trimStart s)).
  { apply Forall_forall. intros c Hc. rewrite Forall_forall in H.
    apply H. apply list_elem_of_In. apply in_rev. rewrite rev_involutive.
    now apply list_elem_of_In. }
  clear H. induction s as [|c s IH]; [constructor|].
  simpl in Hs. destruct (is_whitespace c) eqn:Hc.
  - constructor; auto.
  - inversion Hs; congruence.
Qed.

(** ** The codec: strings *)

Ltac n_cases :=
  repeat match goal with
    | |- context [(?a =? ?b)%N] => destruct (N.eqb_spec a b)
    | |- context [(?a <? ?b)%N] => destruct (N.ltb_spec a b)
    | |- context [(?a <=? ?b)%N] => destruct (N.leb_spec a b)
    end.

Lemma hex_value_digit n : (n < 16)%N -> hex_value (hex_digit n) = Some n.
Proof.
  intros Hn. unfold hex_digit, hex_value.
  destruct (N.ltb_spec n 10); n_cases; simpl; try lia; f_equal; lia.
Qed.

Lemma hex4_digits c :
  (c < 65536)%N ->
  hex4_value (hex_digit ((c / 4096) mod 16)) (hex_digit ((c / 256) mod 16))
             (hex_digit ((c / 16) mod 16)) (hex_digit (c mod 16)) = Some c.
Proof.
  intros Hc. unfold hex4_value.
  rewrite !hex_value_digit by (apply N.mod_lt; discriminate).
  f_equal. zify. Z.to_euclidean_division_equations. lia.
Qed.

Lemma parse_chars_unicode_escape c rest :
  (c < 65536)%N ->
  parse_chars (unicode_escape c ++ rest) = prepend c (parse_chars rest).
Proof.
  intros Hc. unfold unicode_escape.
  cbn [app parse_chars]. change (0x5C =? 0x22)%N with false.
  change (0x5C =? 0x5C)%N with true. change (0x75 =? 0x75)%N with true.
  cbv iota. now rewrite hex4_digits.
Qed.

Lemma parse_chars_raw c rest :
  c <> 0x22%N -> c <> 0x5C%N -> (0x20 <= c)%N ->
  parse_chars (c :: rest) = prepend c (parse_chars rest).
Proof.
  intros H1 H2 H3. cbn [parse_chars].
  destruct (N.eqb_spec c 0x22); [contradiction|].
  destruct (N.eqb_spec c 0x5C); [contradiction|].
  destruct (N.ltb_spec c 0x20); [lia|]. reflexivity.
Qed.

Lemma parse_chars_quote_unit c rest :
  parse_chars (quote_unit c ++ rest) = prepend c (parse_chars rest).
Proof.
  unfold quote_unit.
  destruct (N.eqb_spec c 0x22); [subst; reflexivity|].
  destruct (N.eqb_spec c 0x5C); [subst; reflexivity|].
  destruct (N.eqb_spec c 0x08); [subst; reflexivity|].
  destruct (N.eqb_spec c 0x0C); [subst; reflexivity|].
  destruct (N.eqb_spec c 0x0A); [subst; reflexivity|].
  destruct (N.eqb_spec c 0x0D); [subst; reflexivity|].
  destruct (N.eqb_spec c 0x09); [subst; reflexivity|].
  destruct (N.ltb_spec c 0x20); [apply parse_chars_unicode_escape; lia|].
  destruct (is_high_surrogate c || is_low_surrogate c) eqn:Hs.
  - apply parse_chars_unicode_escape.
    unfold is_high_surrogate, is_low_surrogate in Hs.
    apply orb_true_iff in Hs. destruct Hs as [Hs|Hs];
      apply andb_true_iff in Hs; destruct Hs as [_ Hs];
      apply N.leb_le in Hs; lia.
  - now apply parse_chars_raw.
Qed.

Lemma high_surrogate_raw c : is_high_surrogate c = true ->
  c <> 0x22%N /\ c <> 0x5C%N /\ (0x20 <= c)%N /\ (c < 65536)%N.
Proof.
  unfold is_high_surrogate. intros H. apply andb_true_iff in H.
  destruct H as [H1 H2]. apply N.leb_le in H1, H2. lia.
Qed.

Lemma low_surrogate_raw c : is_low_surrogate c = true ->
  c <> 0x22%N /\ c <> 0x5C%N /\ (0x20 <= c)%N.
Proof.
  unfold is_low_surrogate. intros H. apply andb_true_iff in H.
  destruct H as [H1 H2]. apply N.leb_le in H1, H2. lia.
Qed.

Lemma parse_chars_quote_units_upto n : forall s rest,
  (length s <= n)%nat ->
  parse_chars (quote_units s ++ 0x22%N :: rest) = Some (s, rest).
Proof.
  induction n as [|n IH]; intros s rest Hlen.
  - destruct s; [reflexivity | simpl in Hlen; lia].
  - destruct s as [|c s]; [reflexivity|].
    simpl in Hlen. cbn [quote_units].
    destruct (is_high_surrogate c) eqn:Hc.
    + destruct s as [|d s].
      * rewrite parse_chars_unicode_escape
          by (apply high_surrogate_raw in Hc; lia).
        reflexivity.
      * destruct (is_low_surrogate d) eqn:Hd.
        -- apply high_surrogate_raw in Hc. apply low_surrogate_raw in Hd.
           cbn [app]. rewrite parse_chars_raw by tauto.
           rewrite parse_chars_raw by tauto.
           rewrite IH by (simpl in Hlen; lia). reflexivity.
        -- rewrite <- app_assoc.
           rewrite parse_chars_unicode_escape
             by (apply high_surrogate_raw in Hc; lia).
           rewrite IH by lia. reflexivity.
    + rewrite <- app_assoc, parse_chars_quote_unit.
      rewrite IH by lia. reflexivity.
Qed.

Lemma parse_chars_quote_units s rest :
  parse_chars (quote_units s ++ 0x22%N :: rest) = Some (s, rest).
Proof. apply (parse_chars_quote_units_upto (length s)). lia. Qed.

(** ** The codec: numbers *)

Lemma delimited_no_digit rest :
  delimited rest -> match rest with [] => True | c :: _ => digit_of c = None end.
Proof.
  destruct rest as [|c r]; [trivial|]. intros [-> | [-> | ->]]; reflexivity.
Qed.

Lemma scan_digits_units d rest :
  match rest with [] => True | c :: _ => digit_of c = None end ->
  scan_digits (uint_units d ++ rest) = (d, rest).
Proof.
  intros Hrest.
  induction d; cbn [uint_units app scan_digits];
    try (change (digit_of _) with (Some D0) || change (digit_of _) with (Some D1)
         || change (digit_of _) with (Some D2) || change (digit_of _) with (Some D3)
         || change (digit_of _) with (Some D4) || change (digit_of _) with (Some D5)
         || change (digit_of _) with (Some D6) || change (digit_of _) with (Some D7)
         || change (digit_of _) with (Some D8) || change (digit_of _) with (Some D9));
    try (rewrite IHd; reflexivity).
  destruct rest as [|c r]; [reflexivity|]. simpl. now rewrite Hrest.
Qed.

Lemma scan_fraction_delimited rest :
  delimited rest -> scan_fraction rest = Some (false, rest).
Proof.
  destruct rest as [|c r]; [reflexivity|]. intros [-> | [-> | ->]]; reflexivity.
Qed.

Lemma scan_exponent_delimited rest :
  delimited rest -> scan_exponent rest = Some (false, rest).
Proof.
  destruct rest as [|c r]; [reflexivity|]. intros [-> | [-> | ->]]; reflexivity.
Qed.

Lemma nzhead_head d : match nzhead d with D0 _ => False | _ => True end.
Proof. induction d; simpl; auto. Qed.

Lemma to_uint_canonical p : canonical (Pos.to_uint p).
Proof.
  pose proof (Unsigned.to_of (Pos.to_uint p)) as H.
  rewrite Unsigned.of_to in H. simpl in H.
  pose proof (Unsigned.to_uint_nonzero p) as Hz.
  pose proof (nzhead_head (Pos.to_uint p)) as Hh.
  unfold unorm in H.
  destruct (nzhead (Pos.to_uint p)) eqn:E; rewrite H; simpl;
    try exact I; contradiction.
Qed.

(** The first code unit of the digits. *)
Lemma uint_units_head d :
  d <> Nil -> exists c r, uint_units d = c :: r /\ (0x30 <= c <= 0x39)%N.
Proof.
  destruct d; [congruence| | | | | | | | | |]; intros _; simpl;
    eexists _, _; (split; [reflexivity | lia]).
Qed.

Lemma parse_number_unsigned d rest :
  canonical d -> delimited rest ->
  parse_number (uint_units d ++ rest) = Some (JNum (Z.of_uint d), rest).
Proof.
  intros Hd Hrest. unfold parse_number.
  destruct (uint_units_head d) as (c & r & Hcr & Hc);
    [destruct d; simpl in Hd; congruence|].
  assert (Hminus : (c =? 0x2D)%N = false) by (apply N.eqb_neq; lia).
  remember (uint_units d ++ rest) as s eqn:Hs.
  destruct s as [|c0 s0]; [rewrite Hcr in Hs; discriminate|].
  assert (c0 = c) as -> by (rewrite Hcr in Hs; now inversion Hs).
  rewrite Hminus, Hs.
  rewrite (scan_digits_units d rest (delimited_no_digit rest Hrest)).
  rewrite (scan_fraction_delimited rest Hrest).
  rewrite (scan_exponent_delimited rest Hrest). simpl.
  destruct d as [|d|d|d|d|d|d|d|d|d|d]; try reflexivity; try contradiction.
  destruct d; try contradiction. reflexivity.
Qed.

Lemma parse_number_negative d rest :
  canonical d -> delimited rest ->
  parse_number (0x2D%N :: uint_units d ++ rest) = Some (JNum (- Z.of_uint d), rest).
Proof.
  intros Hd Hrest. unfold parse_number.
  change (0x2D =? 0x2D)%N with true. cbv iota.
  rewrite (scan_digits_units d rest (delimited_no_digit rest Hrest)).
  rewrite (scan_fraction_delimited rest Hrest).
  rewrite (scan_exponent_delimited rest Hrest). simpl.
  destruct d as [|d|d|d|d|d|d|d|d|d|d]; try reflexivity; try contradiction.
  destruct d; try contradiction. reflexivity.
Qed.

Lemma of_uint_to_uint p : Z.of_uint (Pos.to_uint p) = Z.pos p.
Proof. unfold Z.of_uint. now rewrite Unsigned.of_to. Qed.

Lemma parse_number_units z rest :
  delimited rest ->
  parse_number (number_units z ++ rest) = Some (JNum z, rest).
Proof.
  intros Hrest. unfold number_units. destruct z as [|p|p]; cbn [Z.to_int].
  - now rewrite parse_number_unsigned by (simpl; auto).
  - rewrite parse_number_unsigned by (auto using to_uint_canonical).
    now rewrite of_uint_to_uint.
  - cbn [app]. rewrite parse_number_negative by (auto using to_uint_canonical).
    now rewrite of_uint_to_uint.
Qed.

Lemma number_units_head z :
  exists c r, number_units z = c :: r /\ (c = 0x2D \/ 0x30 <= c <= 0x39)%N.
Proof.
  unfold number_units. destruct z as [|p|p]; cbn [Z.to_int].
  - eexists _, _. split; [reflexivity|]. lia.
  - destruct (uint_units_head (Pos.to_uint p)) as (c & r & -> & Hc);
      [apply Unsigned.to_uint_nonnil|]. eexists _, _. split; [reflexivity|]. lia.
  - eexists _, _. split; [reflexivity|]. lia.
Qed.

(** Rewrites the tests [c =? k] that the bounds on [c] decide. *)
Ltac decide_unit :=
  match goal with
  | |- context [(?a =? ?b)%N] =>
      first [ replace (a =? b)%N with false by (symmetry; apply N.eqb_neq; lia)
            | replace (a =? b)%N with true by (symmetry; apply N.eqb_eq; lia) ]
  end.

Ltac decide_units := repeat (decide_unit; cbn [orb andb]; cbv beta iota).

Lemma skip_ws_head c r : is_json_ws c = false -> skip_ws (c :: r) = c :: r.
Proof. intros H. simpl. now rewrite H. Qed.

Lemma parse_value_number_head n c r :
  (c = 0x2D \/ 0x30 <= c <= 0x39)%N ->
  parse_value (S n) (c :: r) = parse_number (c :: r).
Proof.
  intros Hc. cbn [parse_value].
  rewrite skip_ws_head by (unfold is_json_ws; decide_units; reflexivity).
  decide_units. reflexivity.
Qed.

Lemma parse_value_number n z rest :
  delimited rest ->
  parse_value (S n) (number_units z ++ rest) = Some (JNum z, rest).
Proof.
  intros Hrest.
  rewrite <- (parse_number_units z rest Hrest).
  destruct (number_units_head z) as (c & r & -> & Hc).
  now apply parse_value_number_head.
Qed.

(** ** The codec: values *)

Lemma json_induction (P : json -> Prop) :
  P JNull -> (forall b, P (JBool b)) -> (forall z, P (JNum z)) ->
  (forall t, P (JNumLit t)) -> (forall s, P (JStr s)) ->
  (forall l, Forall P l -> P (JArr l)) ->
  (forall o, Forall (fun kv => P (snd kv)) o -> P (JObj o)) ->
  forall v, P v.
Proof.
  intros Hnull Hbool Hnum Hlit Hstr Harr Hobj.
  fix IH 1. intros [| b | z | t | s | l | o].
  - exact Hnull.
  - apply Hbool.
  - apply Hnum.
  - apply Hlit.
  - apply Hstr.
  - apply Harr. induction l as [|v l IHl]; constructor; [apply IH | exact IHl].
  - apply Hobj.
    induction o as [|[k v] o IHo]; constructor; [apply IH | exact IHo].
Qed.

Lemma stringify_array l :
  stringify (JArr l) = 0x5B%N :: elements_text l ++ [0x5D%N].
Proof.
  reflexivity.
Qed.

Lemma stringify_object o :
  stringify (JObj o) = 0x7B%N :: members_text o ++ [0x7D%N].
Proof.
  reflexivity.
Qed.

Lemma plain_array l : plain (JArr l) <-> Forall plain l.
Proof.
  cbn [plain]. induction l as [|v l IH]; [split; auto|].
  rewrite Forall_cons. now rewrite IH.
Qed.

Lemma plain_object o :
  plain (JObj o) <-> simple_keys (List.map fst o) /\ Forall (fun kv => plain (snd kv)) o.
Proof.
  cbn [plain]. apply and_iff_compat_l.
  induction o as [|[k v] o IH]; [split; auto|].
  rewrite Forall_cons. now rewrite IH.
Qed.

Lemma jsize_array l : jsize (JArr l) = S (elements_size l).
Proof.
  induction l as [|v l IH]; [reflexivity|].
  cbn [jsize elements_size fold_right] in *. unfold elements_size in IH. lia.
Qed.

Lemma jsize_object o : jsize (JObj o) = S (members_size o).
Proof.
  induction o as [|[k v] o IH]; [reflexivity|].
  cbn [jsize members_size fold_right snd] in *. unfold members_size in IH. lia.
Qed.

(** The first code unit of the text of a value. *)
Lemma stringify_head v :
  plain v ->
  exists c r, stringify v = c :: r
    /\ is_json_ws c = false /\ c <> 0x5D%N /\ c <> 0x7D%N /\ c <> 0x2C%N.
Proof.
  destruct v as [| [|] | z | t | s | l | o]; intros Hv;
    try (eexists _, _; split; [reflexivity|]; repeat split; discriminate).
  - cbn [stringify]. destruct (number_units_head z) as (c & r & -> & Hc).
    eexists _, _. split; [reflexivity|]. unfold is_json_ws.
    repeat split; try lia. decide_units. reflexivity.
  - destruct Hv.
Qed.

Lemma skip_ws_delimited c r :
  (c = 0x2C \/ c = 0x5D \/ c = 0x7D \/ c = 0x3A)%N -> skip_ws (c :: r) = c :: r.
Proof. intros [-> | [-> | [-> | ->]]]; reflexivity. Qed.

Lemma parse_elements_step n acc s :
  parse_elements (S n) acc s =
    match parse_value n s with
    | None => None
    | Some (v, r) =>
        match skip_ws r with
        | d :: r' =>
            if (d =? 0x2C)%N then parse_elements n (acc ++ [v]) r'
            else if (d =? 0x5D)%N then Some (JArr (acc ++ [v]), r')
            else None
        | [] => None
        end
    end.
Proof. reflexivity. Qed.

Lemma parse_members_step n acc k r2 :
  parse_members (S n) acc (quote k ++ 0x3A%N :: r2) =
    match parse_value n r2 with
    | None => None
    | Some (v, r3) =>
        match skip_ws r3 with
        | e :: r4 =>
            if (e =? 0x2C)%N then parse_members n (own_set k v acc) r4
            else if (e =? 0x7D)%N then Some (JObj (own_set k v acc), r4)
            else None
        | [] => None
        end
    end.
Proof.
  unfold quote. cbn [app]. rewrite <- app_assoc. cbn [app parse_members].
  change (skip_ws (0x22%N :: ?x)) with (0x22%N :: x).
  cbv beta iota. change (0x22 =? 0x22)%N with true. cbv beta iota.
  rewrite parse_chars_quote_units.
  change (skip_ws (0x3A%N :: r2)) with (0x3A%N :: r2).
  cbv beta iota. change (0x3A =? 0x3A)%N with true. reflexivity.
Qed.

Lemma parse_elements_text l :
  Forall roundtrips l -> Forall plain l -> l <> [] ->
  forall n acc rest, (elements_size l <= n)%nat ->
  parse_elements n acc (elements_text l ++ 0x5D%N :: rest) = Some (JArr (acc ++ l), rest).
Proof.
  induction l as [|v l IH]; [congruence|].
  intros HP Hpl _ n acc rest Hn.
  apply Forall_cons in HP as [Hv HP]. apply Forall_cons in Hpl as [Hpv Hpl].
  cbn [elements_size fold_right] in Hn. fold (elements_size l) in Hn.
  destruct n as [|n]; [lia|]. rewrite parse_elements_step.
  destruct l as [|v' l'].
  - cbn [elements_text]. rewrite (Hv Hpv) by (simpl; auto; lia).
    reflexivity.
  - cbn [elements_text]. rewrite <- app_assoc. cbn [app].
    rewrite (Hv Hpv) by (simpl; auto; lia).
    change (skip_ws (0x2C%N :: ?x)) with (0x2C%N :: x). cbv beta iota.
    change (0x2C =? 0x2C)%N with true. cbv beta iota.
    rewrite IH by (auto; try discriminate; lia).
    now rewrite <- app_assoc.
Qed.

Lemma parse_members_text o :
  Forall (fun kv => roundtrips (snd kv)) o -> Forall (fun kv => plain (snd kv)) o ->
  o <> [] ->
  forall n acc rest, (members_size o <= n)%nat ->
  parse_members n acc (members_text o ++ 0x7D%N :: rest)
  = Some (JObj (fold_left set_member o acc), rest).
Proof.
  induction o as [|[k v] o IH]; [congruence|].
  intros HP Hpl _ n acc rest Hn.
  apply Forall_cons in HP as [Hv HP]. apply Forall_cons in Hpl as [Hpv Hpl].
  cbn [snd] in Hv, Hpv.
  cbn [members_size fold_right snd] in Hn. fold (members_size o) in Hn.
  destruct n as [|n]; [lia|].
  destruct o as [|kv' o'].
  - cbn [members_text]. rewrite <- app_assoc. cbn [app].
    rewrite parse_members_step.
    rewrite (Hv Hpv) by (simpl; auto; lia). reflexivity.
  - cbn [members_text]. destruct kv' as [k' v'].
    rewrite <- app_assoc. cbn [app]. rewrite parse_members_step.
    rewrite <- app_assoc. cbn [app].
    rewrite (Hv Hpv) by (simpl; auto; lia).
    change (skip_ws (0x2C%N :: ?x)) with (0x2C%N :: x). cbv beta iota.
    change (0x2C =? 0x2C)%N with true. cbv beta iota.
    rewrite IH by (auto; try discriminate; lia).
    reflexivity.
Qed.

Lemma own_get_not_key {V} k (o : list (jsstring * V)) :
  k ∉ List.map fst o -> own_get k o = None.
Proof.
  induction o as [|[k' v'] o IH]; [reflexivity|]. cbn [List.map fst own_get].
  intros Hk. apply not_elem_of_cons in Hk as [Hne Hk].
  destruct (decide (k = k')); [contradiction|]. auto.
Qed.

Lemma own_set_fresh {V} k (v : V) (o : list (jsstring * V)) :
  k ∉ List.map fst o -> array_index k = None -> own_set k v o = o ++ [(k, v)].
Proof.
  intros Hk Hi. unfold own_set. now rewrite own_get_not_key, Hi.
Qed.

Lemma fold_set_member_simple o : forall acc,
  NoDup (List.map fst (acc ++ o)) ->
  Forall (fun k => array_index k = None) (List.map fst o) ->
  fold_left set_member o acc = acc ++ o.
Proof.
  induction o as [|[k v] o IH]; intros acc Hnd Hix.
  - now rewrite app_nil_r.
  - cbn [fold_left]. unfold set_member at 2. cbn [fst snd].
    cbn [List.map fst] in Hix. apply Forall_cons in Hix as [Hk Hix].
    rewrite List.map_app in Hnd. cbn [List.map fst] in Hnd.
    rewrite own_set_fresh; auto.
    + rewrite IH; [now rewrite <- app_assoc | | assumption].
      rewrite List.map_app, List.map_app. cbn [List.map fst].
      now rewrite <- app_assoc.
    + apply NoDup_app in Hnd as (_ & Hdis & _).
      intros Hin. apply (Hdis k Hin). left.
Qed.

(** Parsing the text of a plain value gives the value back, and leaves
    what follows the text. *)
Lemma parse_value_stringify v : roundtrips v.
Proof.
  induction v as [| b | z | t | s | l IH | o IH] using json_induction;
    intros Hv n rest Hn Hrest; (destruct n as [|n]; [simpl in Hn; lia|]).
  - reflexivity.
  - destruct b; reflexivity.
  - now apply parse_value_number.
  - destruct Hv.
  - cbn [stringify]. unfold quote. cbn [app]. rewrite <- app_assoc.
    cbn [app parse_value]. change (skip_ws (0x22%N :: ?x)) with (0x22%N :: x).
    cbv beta iota. change (0x22 =? 0x6E)%N with false.
    change (0x22 =? 0x74)%N with false. change (0x22 =? 0x66)%N with false.
    change (0x22 =? 0x22)%N with true. cbv beta iota.
    now rewrite parse_chars_quote_units.
  - rewrite stringify_array. rewrite jsize_array in Hn.
    apply plain_array in Hv. cbn [app]. rewrite <- app_assoc. cbn [app].
    destruct l as [|v l].
    + reflexivity.
    + assert (Hhead : exists c r, elements_text (v :: l) = c :: r
                /\ is_json_ws c = false /\ c <> 0x5D%N).
      { destruct (stringify_head v) as (c & r & Hs & Hws & Hc & _);
          [now apply Forall_cons in Hv|].
        cbn [elements_text]. rewrite Hs. destruct l; eexists _, _; eauto. }
      destruct Hhead as (c & r & Hs & Hws & Hc).
      pose proof (parse_elements_text (v :: l) IH Hv ltac:(discriminate) n [] rest
                    ltac:(lia)) as Hel.
      cbn [app] in Hel. rewrite <- Hel.
      rewrite Hs. cbn [app parse_value].
      change (skip_ws (0x5B%N :: ?x)) with (0x5B%N :: x). cbv beta iota.
      change (0x5B =? 0x6E)%N with false. change (0x5B =? 0x74)%N with false.
      change (0x5B =? 0x66)%N with false. change (0x5B =? 0x22)%N with false.
      change (0x5B =? 0x5B)%N with true. cbv beta iota.
      rewrite skip_ws_head by assumption.
      apply N.eqb_neq in Hc. now rewrite Hc.
  - rewrite stringify_object. rewrite jsize_object in Hn.
    apply plain_object in Hv as [[Hnd Hix] Hv]. cbn [app]. rewrite <- app_assoc.
    cbn [app]. destruct o as [|[k v] o].
    + reflexivity.
    + pose proof (parse_members_text ((k, v) :: o) IH Hv ltac:(discriminate) n [] rest
                    ltac:(lia)) as Hel.
      rewrite (fold_set_member_simple ((k, v) :: o) []) in Hel by assumption.
      cbn [app] in Hel. rewrite <- Hel.
      assert (Hhead : exists r, members_text ((k, v) :: o) = 0x22%N :: r).
      { cbn [members_text]. unfold quote. destruct o; eexists; reflexivity. }
      destruct Hhead as (r & Hs). rewrite Hs. cbn [app parse_value].
      change (skip_ws (0x7B%N :: ?x)) with (0x7B%N :: x). cbv beta iota.
      change (0x7B =? 0x6E)%N with false. change (0x7B =? 0x74)%N with false.
      change (0x7B =? 0x66)%N with false. change (0x7B =? 0x22)%N with false.
      change (0x7B =? 0x5B)%N with false. change (0x7B =? 0x7B)%N with true.
      cbv beta iota. change (skip_ws (0x22%N :: ?x)) with (0x22%N :: x).
      cbv beta iota. change (0x22 =? 0x7D)%N with false. reflexivity.
Qed.

Lemma elements_size_bound l :
  Forall (fun v => (jsize v <= 2 * length (stringify v))%nat) l ->
  (elements_size l <= 2 * length (elements_text l) + 2)%nat.
Proof.
  induction l as [|v l IH]; intros H; [simpl; lia|].
  apply Forall_cons in H as [Hv H]. specialize (IH H).
  cbn [elements_size fold_right]. fold (elements_size l).
  cbn [elements_text]. destruct l as [|v' l'].
  - simpl. lia.
  - rewrite length_app. cbn [length]. lia.
Qed.

Lemma members_size_bound o :
  Forall (fun kv => (jsize (snd kv) <= 2 * length (stringify (snd kv)))%nat) o ->
  (members_size o <= 2 * length (members_text o) + 2)%nat.
Proof.
  induction o as [|[k v] o IH]; intros H; [simpl; lia|].
  apply Forall_cons in H as [Hv H]. specialize (IH H). cbn [snd] in Hv.
  cbn [members_size fold_right snd]. fold (members_size o).
  cbn [members_text]. destruct o as [|kv' o'].
  - rewrite length_app. cbn [length]. simpl in *. lia.
  - rewrite length_app. cbn [length]. rewrite length_app. cbn [length]. lia.
Qed.

Lemma jsize_bound v : plain v -> (jsize v <= 2 * length (stringify v))%nat.
Proof.
  induction v as [| b | z | t | s | l IH | o IH] using json_induction; intros Hv;
    try (destruct (stringify_head _ Hv) as (c & r & -> & _); simpl; lia).
  - rewrite jsize_array, stringify_array. apply plain_array in Hv.
    cbn [length]. rewrite length_app. cbn [length].
    pose proof (elements_size_bound l) as Hb.
    assert (Hl : Forall (fun v => (jsize v <= 2 * length (stringify v))%nat) l).
    { rewrite Forall_forall in *. auto. }
    specialize (Hb Hl). lia.
  - rewrite jsize_object, stringify_object. apply plain_object in Hv as [_ Hv].
    cbn [length]. rewrite length_app. cbn [length].
    pose proof (members_size_bound o) as Hb.
    assert (Hl : Forall (fun kv => (jsize (snd kv) <= 2 * length (stringify (snd kv)))%nat) o).
    { rewrite Forall_forall in *. auto. }
    specialize (Hb Hl). lia.
Qed.

(** [JSON.parse (JSON.stringify v)] is [v], for every plain value. *)
Lemma JSON_parse_stringify v : plain v -> JSON_parse (JSON_stringify v) = Some v.
Proof.
  intros Hv. unfold JSON_parse, JSON_stringify.
  pose proof (parse_value_stringify v Hv (S (2 * length (stringify v))) []) as H.
  rewrite app_nil_r in H. rewrite H; [reflexivity | | exact I].
  pose proof (jsize_bound v Hv). lia.
Qed.

Lemma JSON_stringify_truthy v : plain v -> truthy_string (JSON_stringify v) = true.
Proof.
  intros Hv. unfold JSON_stringify.
  now destruct (stringify_head v Hv) as (c & r & -> & _).
Qed.

(** ** The parser: what it consumes, and its bound *)

Lemma skip_ws_length s : (length (skip_ws s) <= length s)%nat.
Proof.
  induction s as [|c s IH]; cbn [skip_ws length]; [lia|].
  destruct (is_json_ws c); cbn [length]; lia.
Qed.

Lemma expect_length w : forall s r,
  expect w s = Some r -> (length r <= length s)%nat.
Proof.
  induction w as [|a w IH]; intros s r H; cbn [expect] in H.
  - injection H as <-. lia.
  - destruct s as [|c s]; [discriminate|].
    destruct (a =? c)%N; [|discriminate]. apply IH in H. cbn [length]. lia.
Qed.

Lemma scan_digits_length s : forall u r,
  scan_digits s = (u, r) ->
  (length r <= length s)%nat /\ (u <> Nil -> (length r < length s)%nat).
Proof.
  induction s as [|c s IH]; intros u r H; cbn [scan_digits] in H.
  - injection H as <- <-. split; [lia | congruence].
  - destruct (digit_of c) as [d|].
    + destruct (scan_digits s) as [u' r'] eqn:Hs. injection H as <- <-.
      destruct (IH u' r' eq_refl) as [Hle _]. cbn [length]. split; lia.
    + injection H as <- <-. split; [lia | congruence].
Qed.

Lemma scan_fraction_length s b r :
  scan_fraction s = Some (b, r) -> (length r <= length s)%nat.
Proof.
  unfold scan_fraction. destruct s as [|c s]; [intros H; injection H as <- <-; lia|].
  destruct (c =? 0x2E)%N.
  - destruct (scan_digits s) as [u r'] eqn:Hs.
    apply scan_digits_length in Hs as [Hle _].
    destruct u; intros H; try discriminate; injection H as <- <-;
      cbn [length]; lia.
  - intros H; injection H as <- <-. lia.
Qed.

Lemma scan_exponent_length s b r :
  scan_exponent s = Some (b, r) -> (length r <= length s)%nat.
Proof.
  unfold scan_exponent. destruct s as [|c s]; [intros H; injection H as <- <-; lia|].
  destruct ((c =? 0x65) || (c =? 0x45))%N.
  - set (r1 := match s with [] => s | d :: r' => _ end).
    assert (Hr1 : (length r1 <= length s)%nat).
    { subst r1. destruct s as [|d s']; [lia|].
      destruct ((d =? 0x2B) || (d =? 0x2D))%N; cbn [length]; lia. }
    destruct (scan_digits r1) as [u r'] eqn:Hs.
    apply scan_digits_length in Hs as [Hle _].
    destruct u; intros H; try discriminate; injection H as <- <-;
      cbn [length]; lia.
  - intros H; injection H as <- <-. lia.
Qed.

Lemma parse_number_length s v r :
  parse_number s = Some (v, r) -> (length r < length s)%nat.
Proof.
  unfold parse_number.
  set (p := match s with [] => (false, s) | c :: r0 => _ end).
  assert (Hp : (length (snd p) <= length s)%nat).
  { subst p. destruct s as [|c s']; [cbn; lia|].
    destruct (c =? 0x2D)%N; cbn [snd length]; lia. }
  destruct p as [negative s1]. cbn [snd] in Hp.
  destruct (scan_digits s1) as [ip s2] eqn:Hs.
  apply scan_digits_length in Hs as [Hle Hlt].
  intros H.
  assert (Hnil : ip <> Nil) by (intros ->; discriminate H).
  specialize (Hlt Hnil).
  assert (Hrest : forall x,
             match scan_fraction s2 with
             | Some (has_fraction, s3) =>
                 match scan_exponent s3 with
                 | Some (has_exponent, s4) =>
                     if (has_fraction || has_exponent)%bool
                     then Some (JNumLit (firstn (length s - length s4) s), s4)
                     else Some (x, s4)
                 | None => None
                 end
             | None => None
             end = Some (v, r) -> (length r <= length s2)%nat).
  { intros x Hx. destruct (scan_fraction s2) as [[hf s3]|] eqn:Hf; [|discriminate].
    destruct (scan_exponent s3) as [[he s4]|] eqn:He; [|discriminate].
    apply scan_fraction_length in Hf. apply scan_exponent_length in He.
    destruct (hf || he)%bool; injection Hx as <- <-; lia. }
  destruct ip as [|d|d|d|d|d|d|d|d|d|d]; try discriminate;
    try (apply Hrest in H; lia).
  destruct d; try discriminate; apply Hrest in H; lia.
Qed.

Lemma prepend_Some c x str r :
  prepend c x = Some (str, r) -> exists str', x = Some (str', r).
Proof.
  destruct x as [[s' r']|]; [|discriminate]. cbn [prepend].
  intros H. injection H as <- <-. eauto.
Qed.

Lemma parse_chars_length_upto n : forall s str r,
  (length s <= n)%nat -> parse_chars s = Some (str, r) -> (length r < length s)%nat.
Proof.
  induction n as [|n IH]; intros s str r Hn H.
  - destruct s; [discriminate | cbn [length] in Hn; lia].
  - destruct s as [|c s]; [discriminate|]. cbn [parse_chars length] in *.
    destruct (c =? 0x22)%N; [injection H as <- <-; lia|].
    destruct (c =? 0x5C)%N.
    + destruct s as [|e s1]; [discriminate|]. cbn [length] in *.
      destruct (e =? 0x75)%N.
      * destruct s1 as [|h1 [|h2 [|h3 [|h4 s2]]]]; try discriminate.
        destruct (hex4_value h1 h2 h3 h4); [|discriminate].
        apply prepend_Some in H as [str' H]. cbn [length] in *.
        apply IH in H; lia.
      * destruct (simple_escape e); [|discriminate].
        apply prepend_Some in H as [str' H]. apply IH in H; lia.
    + destruct (c <? 0x20)%N; [discriminate|].
      apply prepend_Some in H as [str' H]. apply IH in H; lia.
Qed.

Lemma parse_chars_length s str r :
  parse_chars s = Some (str, r) -> (length r < length s)%nat.
Proof. apply (parse_chars_length_upto (length s)). lia. Qed.

Ltac skip_ws_bound s :=
  let L := fresh "Hws" in pose proof (skip_ws_length s) as L.

(** Every successful call consumes at least one code unit. *)
Lemma parse_consumes n :
  (forall s v r, parse_value n s = Some (v, r) -> (length r < length s)%nat)
  /\ (forall acc s v r,
        parse_elements n acc s = Some (v, r) -> (length r < length s)%nat)
  /\ (forall acc s v r,
        parse_members n acc s = Some (v, r) -> (length r < length s)%nat).
Proof.
  induction n as [|n (IHv & IHe & IHm)]; [repeat split; discriminate|].
  split; [|split].
  - intros s v r H. cbn [parse_value] in H. skip_ws_bound s.
    destruct (skip_ws s) as [|c r0]; [discriminate|]. cbn [length] in Hws.
    destruct (c =? 0x6E)%N.
    { destruct (expect _ r0) as [r'|] eqn:He; [|discriminate].
      injection H as <- <-. apply expect_length in He. lia. }
    destruct (c =? 0x74)%N.
    { destruct (expect _ r0) as [r'|] eqn:He; [|discriminate].
      injection H as <- <-. apply expect_length in He. lia. }
    destruct (c =? 0x66)%N.
    { destruct (expect _ r0) as [r'|] eqn:He; [|discriminate].
      injection H as <- <-. apply expect_length in He. lia. }
    destruct (c =? 0x22)%N.
    { destruct (parse_chars r0) as [[str r']|] eqn:Hc; [|discriminate].
      injection H as <- <-. apply parse_chars_length in Hc. lia. }
    destruct (c =? 0x5B)%N.
    { skip_ws_bound r0. destruct (skip_ws r0) as [|d r']; [discriminate|].
      cbn [length] in *. destruct (d =? 0x5D)%N.
      - injection H as <- <-. lia.
      - apply IHe in H. cbn [length] in H. lia. }
    destruct (c =? 0x7B)%N.
    { skip_ws_bound r0. destruct (skip_ws r0) as [|d r']; [discriminate|].
      cbn [length] in *. destruct (d =? 0x7D)%N.
      - injection H as <- <-. lia.
      - apply IHm in H. cbn [length] in H. lia. }
    apply parse_number_length in H. cbn [length] in H. lia.
  - intros acc s v r H. cbn [parse_elements] in H.
    destruct (parse_value n s) as [[v1 r1]|] eqn:Hv; [|discriminate].
    apply IHv in Hv. skip_ws_bound r1.
    destruct (skip_ws r1) as [|d r']; [discriminate|]. cbn [length] in *.
    destruct (d =? 0x2C)%N; [apply IHe in H; lia|].
    destruct (d =? 0x5D)%N; [|discriminate]. injection H as <- <-. lia.
  - intros acc s v r H. cbn [parse_members] in H. skip_ws_bound s.
    destruct (skip_ws s) as [|c r0]; [discriminate|]. cbn [length] in *.
    destruct (c =? 0x22)%N; [|discriminate].
    destruct (parse_chars r0) as [[k r1]|] eqn:Hc; [|discriminate].
    apply parse_chars_length in Hc. skip_ws_bound r1.
    destruct (skip_ws r1) as [|d r2]; [discriminate|]. cbn [length] in *.
    destruct (d =? 0x3A)%N; [|discriminate].
    destruct (parse_value n r2) as [[v1 r3]|] eqn:Hv; [|discriminate].
    apply IHv in Hv. skip_ws_bound r3.
    destruct (skip_ws r3) as [|e r4]; [discriminate|]. cbn [length] in *.
    destruct (e =? 0x2C)%N; [apply IHm in H; lia|].
    destruct (e =? 0x7D)%N; [|discriminate]. injection H as <- <-. lia.
Qed.

(** Beyond twice the length of the text, the bound on the nested calls
    plays no part: the outcome is the same under any larger bound. *)
Lemma parse_bound_irrelevant n :
  (forall m s, (2 * length s < n)%nat -> (2 * length s < m)%nat ->
               parse_value n s = parse_value m s)
  /\ (forall m acc s, (2 * length s + 1 < n)%nat -> (2 * length s + 1 < m)%nat ->
                      parse_elements n acc s = parse_elements m acc s)
  /\ (forall m acc s, (2 * length s + 1 < n)%nat -> (2 * length s + 1 < m)%nat ->
                      parse_members n acc s = parse_members m acc s).
Proof.
  induction n as [|n (IHv & IHe & IHm)]; [repeat split; intros; lia|].
  split; [|split].
  - intros [|m] s Hn Hm; [lia|]. cbn [parse_value]. skip_ws_bound s.
    destruct (skip_ws s) as [|c r0]; [reflexivity|]. cbn [length] in Hws.
    repeat (match goal with |- context [if ?b then _ else _] => destruct b end;
            try reflexivity).
    + skip_ws_bound r0. destruct (skip_ws r0) as [|d r']; [reflexivity|].
      cbn [length] in *. destruct (d =? 0x5D)%N; [reflexivity|].
      apply IHe; cbn [length]; lia.
    + skip_ws_bound r0. destruct (skip_ws r0) as [|d r']; [reflexivity|].
      cbn [length] in *. destruct (d =? 0x7D)%N; [reflexivity|].
      apply IHm; cbn [length]; lia.
  - intros [|m] acc s Hn Hm; [lia|]. cbn [parse_elements].
    rewrite (IHv m s) by lia.
    destruct (parse_value m s) as [[v1 r1]|] eqn:Hv; [|reflexivity].
    apply (proj1 (parse_consumes m)) in Hv. skip_ws_bound r1.
    destruct (skip_ws r1) as [|d r']; [reflexivity|]. cbn [length] in *.
    destruct (d =? 0x2C)%N; [|reflexivity]. apply IHe; lia.
  - intros [|m] acc s Hn Hm; [lia|]. cbn [parse_members]. skip_ws_bound s.
    destruct (skip_ws s) as [|c r0]; [reflexivity|]. cbn [length] in *.
    destruct (c =? 0x22)%N; [|reflexivity].
    destruct (parse_chars r0) as [[k r1]|] eqn:Hc; [|reflexivity].
    apply parse_chars_length in Hc. skip_ws_bound r1.
    destruct (skip_ws r1) as [|d r2]; [reflexivity|]. cbn [length] in *.
    destruct (d =? 0x3A)%N; [|reflexivity].
    rewrite (IHv m r2) by lia.
    destruct (parse_value m r2) as [[v1 r3]|] eqn:Hv; [|reflexivity].
    apply (proj1 (parse_consumes m)) in Hv. skip_ws_bound r3.
    destruct (skip_ws r3) as [|e r4]; [reflexivity|]. cbn [length] in *.
    destruct (e =? 0x2C)%N; [|reflexivity]. apply IHm; lia.
Qed.

(** [JSON_parse] rejects a text only for its syntax: no larger bound
    would make the parser accept it. *)
Lemma JSON_parse_bound s n :
  (2 * length s < n)%nat ->
  parse_value n s = parse_value (S (2 * length s)) s.
Proof. intros Hn. apply (proj1 (parse_bound_irrelevant n)); lia. Qed.

(** ** The handlers, step by step *)

Lemma stopActiveJob_running st notes w q a :
  activeJob st = Some a ->
  stopActiveJob st notes (w, q) =
    (Some (closed_entry a (clock w (reads w)) (uuids w (drawn w)) notes),
     (after_stop w,
      q ++ [PrependEntry (closed_entry a (clock w (reads w)) (uuids w (drawn w)) notes)]
        ++ [SetActiveJob None])).
Proof.
  intros Ha. unfold stopActiveJob. rewrite Ha.
  unfold mbind, M_bind, mret, M_ret, Date_now, randomUUID, enqueue; simpl.
  unfold after_stop, closed_entry. now rewrite <- app_assoc.
Qed.

Lemma stopActiveJob_idle st notes s :
  activeJob st = None -> stopActiveJob st notes s = (None, s).
Proof. intros Ha. unfold stopActiveJob. now rewrite Ha. Qed.

Lemma M_bind_run {A B} (m : M A) (f : A -> M B) s :
  (m ≫= f) s = let '(x, s') := m s in f x s'.
Proof. reflexivity. Qed.

Lemma truthy_string_true (s : jsstring) : s <> [] -> truthy_string s = true.
Proof. destruct s; [congruence | reflexivity]. Qed.

(** ** One event at a time *)

Lemma dispatch_stop_running st w a :
  activeJob st = Some a ->
  let e := closed_entry a (clock w (reads w)) (uuids w (drawn w)) (notesInput st) in
  dispatch handleStop (st, w) =
    (mkState (e :: entries st) None 0 (jobInput st) [],
     with_storage
       (delete STORAGE.ACTIVE
          (<[STORAGE.ENTRIES := JSON_stringify (entries_to_json (e :: entries st))]>
             (localStorage w)))
       (after_stop w)).
Proof.
  intros Ha e. unfold dispatch, handleStop.
  unfold mbind at 1, M_bind at 1.
  rewrite (stopActiveJob_running st (notesInput st) w [] a Ha).
  fold e. destruct st, w; simpl in *. subst. reflexivity.
Qed.

Lemma dispatch_stop_idle st w :
  activeJob st = None ->
  dispatch handleStop (st, w) =
    (mkState (entries st) None (elapsed st) (jobInput st) [], w).
Proof.
  intros Ha. unfold dispatch, handleStop.
  unfold mbind at 1, M_bind at 1.
  rewrite (stopActiveJob_idle st (notesInput st) (w, []) Ha).
  destruct st, w; simpl in *. subst. reflexivity.
Qed.

Lemma dispatch_start_idle st w :
  activeJob st = None -> trim (jobInput st) <> [] ->
  let a' := {| activeJobNumber := trim (jobInput st);
               activeStartTimestamp := clock w (reads w) |} in
  dispatch handleStart (st, w) =
    (mkState (entries st) (Some a')
             ((clock w (S (reads w)) - clock w (reads w)) / 1000)
             (jobInput st) [],
     mkWorld (clock w) (S (S (reads w))) (uuids w) (drawn w) (answers w) (asked w)
             (<[STORAGE.ACTIVE := JSON_stringify (activeJob_to_json a')]>
                (localStorage w))).
Proof.
  intros Ha Hjob a'. unfold dispatch, handleStart.
  rewrite (truthy_string_true _ Hjob), Ha.
  destruct st, w; simpl in *. subst. reflexivity.
Qed.

Lemma dispatch_start_running st w a :
  activeJob st = Some a -> trim (jobInput st) <> [] ->
  let e := closed_entry a (clock w (reads w)) (uuids w (drawn w)) (notesInput st) in
  let a' := {| activeJobNumber := trim (jobInput st);
               activeStartTimestamp := clock w (S (reads w)) |} in
  dispatch handleStart (st, w) =
    (mkState (e :: entries st) (Some a')
             ((clock w (S (S (reads w))) - clock w (S (reads w))) / 1000)
             (jobInput st) [],
     mkWorld (clock w) (S (S (S (reads w)))) (uuids w) (S (drawn w)) (answers w)
             (asked w)
             (<[STORAGE.ACTIVE := JSON_stringify (activeJob_to_json a')]>
                (<[STORAGE.ENTRIES := JSON_stringify (entries_to_json (e :: entries st))]>
                   (localStorage w)))).
Proof.
  intros Ha Hjob e a'. unfold dispatch, handleStart.
  rewrite (truthy_string_true _ Hjob), Ha. cbn [negb].
  rewrite !M_bind_run.
  rewrite (stopActiveJob_running st (notesInput st) w [] a Ha).
  fold e. destruct st, w; simpl in *. subst. reflexivity.
Qed.

(** ** The timer state machine *)

(** C1. Starting a job while a session is running is the same as stopping
    and then starting: both sequences of events end in the same state and
    the same world (store, clock readings and identifiers consumed).  The
    entries list gains exactly one entry, the running session closed with
    the note of the form (trimmed), and the active session is the new job,
    started at the second reading of the clock. *)
Theorem switch_is_stop_then_start st w a :
  activeJob st = Some a -> trim (jobInput st) <> [] ->
  dispatch handleStart (st, w) = dispatch handleStart (dispatch handleStop (st, w))
  /\ (exists e,
        entries (fst (dispatch handleStart (st, w))) = e :: entries st
        /\ jobNumber e = activeJobNumber a
        /\ startTimestamp e = activeStartTimestamp a
        /\ notes e = trim (notesInput st))
  /\ activeJob (fst (dispatch handleStart (st, w))) =
       Some {| activeJobNumber := trim (jobInput st);
               activeStartTimestamp := clock w (S (reads w)) |}.
Proof.
  intros Ha Hjob.
  rewrite (dispatch_start_running st w a Ha Hjob).
  rewrite (dispatch_stop_running st w a Ha).
  split; [|split].
  - rewrite dispatch_start_idle by (simpl; first [reflexivity | assumption]).
    simpl. unfold with_storage, after_stop. simpl.
    now rewrite insert_delete_eq.
  - eexists. simpl. repeat split; reflexivity.
  - reflexivity.
Qed.

Lemma switch_is_stop_then_start_witness :
  activeJob Sample.running
    = Some {| activeJobNumber := lit "JOB-1"; activeStartTimestamp := 1699999940000 |}
  /\ trim (jobInput Sample.running) <> []
  /\ dispatch handleStart (Sample.running, Sample.world ∅)
     = dispatch handleStart (dispatch handleStop (Sample.running, Sample.world ∅)).
Proof.
  split; [reflexivity|]. split; [vm_compute; discriminate|].
  refine (proj1 (switch_is_stop_then_start Sample.running (Sample.world ∅)
           {| activeJobNumber := lit "JOB-1"; activeStartTimestamp := 1699999940000 |}
           eq_refl _)).
  vm_compute; discriminate.
Defined.

(** C2, as the code has it.  The entry a stop produces (the stop of a
    switch included) has [durationSeconds = floor ((end - start) / 1000)]
    whatever the clock reads; [end >= start], and the difference and the
    duration being [>= 0], hold when the clock at the stop reads no less
    than the start of the session. *)
Theorem stop_entry_duration st w a (h : State -> M unit) :
  activeJob st = Some a ->
  h = handleStop \/ (h = handleStart /\ trim (jobInput st) <> []) ->
  exists e,
    entries (fst (dispatch h (st, w))) = e :: entries st
    /\ startTimestamp e = activeStartTimestamp a
    /\ endTimestamp e = clock w (reads w)
    /\ durationSeconds e = (endTimestamp e - startTimestamp e) / 1000
    /\ (activeStartTimestamp a <= clock w (reads w) ->
        startTimestamp e <= endTimestamp e
        /\ 0 <= endTimestamp e - startTimestamp e
        /\ 0 <= durationSeconds e).
Proof.
  intros Ha Hh.
  exists (closed_entry a (clock w (reads w)) (uuids w (drawn w)) (notesInput st)).
  split.
  - destruct Hh as [-> | [-> Hjob]].
    + now rewrite (dispatch_stop_running st w a Ha).
    + now rewrite (dispatch_start_running st w a Ha Hjob).
  - simpl. repeat split; try reflexivity; try lia.
    apply Z.div_pos; lia.
Qed.

Lemma stop_entry_duration_witness :
  exists e,
    entries (fst (dispatch handleStop (Sample.running, Sample.world ∅))) = [e]
    /\ startTimestamp e = 1699999940000
    /\ endTimestamp e = 1700000000000
    /\ durationSeconds e = (endTimestamp e - startTimestamp e) / 1000
    /\ (1699999940000 <= 1700000000000 ->
        startTimestamp e <= endTimestamp e
        /\ 0 <= endTimestamp e - startTimestamp e
        /\ 0 <= durationSeconds e).
Proof.
  apply (stop_entry_duration Sample.running (Sample.world ∅)
           {| activeJobNumber := lit "JOB-1"; activeStartTimestamp := 1699999940000 |}
           handleStop);
    [reflexivity | left; reflexivity].
Defined.

(** C2 as stated fails: when the clock at the stop reads less than the
    start of the session (the clock was set back, or the session was
    restored from a store written under a later clock), the entry ends
    before it starts and its duration is negative. *)
Lemma stop_after_clock_set_back :
  exists e,
    entries (fst (dispatch handleStop (Sample.started_later, Sample.world ∅))) = [e]
    /\ startTimestamp e = 1700000003000
    /\ endTimestamp e = 1700000000000
    /\ durationSeconds e = -3
    /\ ~ (startTimestamp e <= endTimestamp e)
    /\ ~ (0 <= durationSeconds e).
Proof.
  eexists. split; [vm_compute; reflexivity|].
  simpl. repeat split; try reflexivity; lia.
Qed.

(** C7. Clearing, once confirmed, leaves no entry and no active session,
    and the store holds the empty list and no record of a session: the
    session that was running is in no entry.  When the confirmation is
    declined, the state and the store are unchanged. *)
Theorem clearAll_discards st w :
  let r := dispatch handleClearAll (st, w) in
  if answers w (asked w)
  then entries (fst r) = [] /\ activeJob (fst r) = None
       /\ localStorage (snd r) !! STORAGE.ENTRIES = Some [0x5B; 0x5D]%N
       /\ (activeJob st <> None -> localStorage (snd r) !! STORAGE.ACTIVE = None)
  else fst r = st /\ localStorage (snd r) = localStorage w.
Proof.
  unfold dispatch, handleClearAll. rewrite M_bind_run.
  unfold confirm. destruct (answers w (asked w)) eqn:Hans.
  - destruct st as [es [a|] el ji ni], w; simpl in *.
    + repeat split; try reflexivity.
      * rewrite lookup_delete_ne by discriminate. now rewrite lookup_insert_eq.
      * intros _. now rewrite lookup_delete_eq.
    + repeat split; try reflexivity.
      * now rewrite lookup_insert_eq.
      * congruence.
  - destruct st, w; simpl in *. split; reflexivity.
Qed.

Lemma dispatch_start_blank st w :
  trim (jobInput st) = [] -> dispatch handleStart (st, w) = (st, w).
Proof.
  intros Hblank. unfold dispatch, handleStart.
  rewrite Hblank. destruct st, w; reflexivity.
Qed.

Lemma filter_sublist {A} (f : A -> bool) (l : list A) : sublist (List.filter f l) l.
Proof.
  induction l as [|x l IH]; cbn [List.filter]; [constructor|].
  destruct (f x); now constructor.
Qed.

(** What one event does to the list of entries: it puts one entry in
    front, or it leaves a sublist, in the same order. *)
Lemma step_entries ev st w :
  (exists e, entries (fst (step ev (st, w))) = e :: entries st)
  \/ sublist (entries (fst (step ev (st, w)))) (entries st).
Proof.
  unfold step. destruct ev as [| |i| |s|s|]; cbn [handler].
  - destruct (activeJob st) as [a|] eqn:Ha.
    + destruct (trim (jobInput st)) as [|c job] eqn:Hjob.
      * right. now rewrite dispatch_start_blank.
      * left. rewrite (dispatch_start_running st w a Ha) by (rewrite Hjob; discriminate).
        eexists. reflexivity.
    + right. destruct (trim (jobInput st)) as [|c job] eqn:Hjob.
      * now rewrite dispatch_start_blank.
      * now rewrite (dispatch_start_idle st w Ha) by (rewrite Hjob; discriminate).
  - destruct (activeJob st) as [a|] eqn:Ha.
    + left. rewrite (dispatch_stop_running st w a Ha). eexists. reflexivity.
    + right. now rewrite (dispatch_stop_idle st w Ha).
  - right. destruct st, w. cbn. apply filter_sublist.
  - right. unfold dispatch, handleClearAll. rewrite M_bind_run. unfold confirm.
    destruct (answers w (asked w)).
    + destruct st as [es [a|] el ji ni], w; cbn; apply sublist_nil_l.
    + destruct st, w; cbn. reflexivity.
  - right. destruct st, w. cbn. reflexivity.
  - right. destruct st, w. cbn. reflexivity.
  - right. destruct st as [es [a|] el ji ni], w; cbn; reflexivity.
Qed.

(** C8. A stop, and the stop of a switch, put the new entry in front of
    the list and leave the entries that were there as they were, in their
    order; and no event does anything else to the list than to put one
    entry in front or to remove entries: the list is in the order of the
    stops, the latest first. *)
Theorem stop_prepends_entry :
  (forall st w a,
      activeJob st = Some a ->
      let e := closed_entry a (clock w (reads w)) (uuids w (drawn w)) (notesInput st) in
      entries (fst (dispatch handleStop (st, w))) = e :: entries st
      /\ (trim (jobInput st) <> [] ->
          entries (fst (dispatch handleStart (st, w))) = e :: entries st))
  /\ (forall ev st w,
        (exists e, entries (fst (step ev (st, w))) = e :: entries st)
        \/ sublist (entries (fst (step ev (st, w)))) (entries st)).
Proof.
  split; [|exact step_entries].
  intros st w a Ha e. split.
  - now rewrite (dispatch_stop_running st w a Ha).
  - intros Hjob. now rewrite (dispatch_start_running st w a Ha Hjob).
Qed.

Lemma stop_prepends_entry_witness :
  entries (fst (dispatch handleStop (Sample.running, Sample.world ∅)))
  = closed_entry {| activeJobNumber := lit "JOB-1";
                    activeStartTimestamp := 1699999940000 |}
                 1700000000000 (lit "id-0") (lit "wiring ")
    :: entries Sample.running.
Proof.
  exact (proj1 (proj1 stop_prepends_entry Sample.running (Sample.world ∅)
           {| activeJobNumber := lit "JOB-1"; activeStartTimestamp := 1699999940000 |}
           eq_refl)).
Defined.

(** C9. With a job number that is empty or blank, start changes nothing:
    the state (entries, active session, form) and the world (the store
    among it) are as before. *)
Theorem start_blank_job_is_noop st w :
  Forall (fun c => is_whitespace c = true) (jobInput st) ->
  dispatch handleStart (st, w) = (st, w).
Proof.
  intros Hblank. unfold dispatch, handleStart.
  rewrite (trim_blank _ Hblank). destruct st, w; reflexivity.
Qed.

Lemma start_blank_job_is_noop_witness :
  Forall (fun c => is_whitespace c = true) (jobInput Sample.blank)
  /\ dispatch handleStart (Sample.blank, Sample.world ∅)
     = (Sample.blank, Sample.world ∅).
Proof.
  assert (H : Forall (fun c => is_whitespace c = true) (jobInput Sample.blank))
    by (repeat constructor).
  split; [exact H|].
  apply (start_blank_job_is_noop Sample.blank (Sample.world ∅) H).
Defined.

(** ** The records in the store *)

Ltac distinct_keys :=
  repeat (apply NoDup_cons; split;
          [rewrite ?not_elem_of_cons; repeat split;
           try discriminate; apply not_elem_of_nil |]);
  apply NoDup_nil_2.

Lemma plain_entry e : plain (entry_to_json e).
Proof.
  unfold entry_to_json. apply plain_object. split.
  - split.
    + vm_compute. distinct_keys.
    + repeat constructor.
  - repeat constructor.
Qed.

Lemma plain_entries es : plain (entries_to_json es).
Proof.
  unfold entries_to_json. apply plain_array.
  induction es; constructor; auto using plain_entry.
Qed.

Lemma plain_activeJob a : plain (activeJob_to_json a).
Proof.
  unfold activeJob_to_json. apply plain_object. split.
  - split.
    + vm_compute. distinct_keys.
    + repeat constructor.
  - repeat constructor.
Qed.

Lemma entry_of_to_json e : entry_of_json (entry_to_json e) = Some e.
Proof.
  unfold entry_to_json, entry_of_json.
  destruct (decide _) as [_|Hn]; [now destruct e|].
  exfalso. apply Hn. repeat split.
Qed.

Lemma entries_of_to_json es : entries_of_json (entries_to_json es) = Some es.
Proof.
  unfold entries_to_json, entries_of_json.
  induction es as [|e es IH]; [reflexivity|].
  cbn [List.map entry_list_of_json]. now rewrite entry_of_to_json, IH.
Qed.

Lemma activeJob_of_to_json o : activeJob_of_json (activeJob_value o) = Some o.
Proof.
  destruct o as [a|]; [|reflexivity].
  unfold activeJob_value, activeJob_to_json, activeJob_of_json.
  destruct (decide _) as [_|Hn]; [now destruct a|].
  exfalso. apply Hn. repeat split.
Qed.

(** Loading a record that holds the text of a plain value. *)
Lemma load_stringify (store : gmap jsstring jsstring) key fallback v :
  plain v -> store !! key = Some (JSON_stringify v) -> load key fallback store = v.
Proof.
  intros Hv Hk. unfold load, load_try.
  now rewrite Hk, JSON_stringify_truthy, JSON_parse_stringify.
Qed.

Lemma load_missing (store : gmap jsstring jsstring) key fallback :
  store !! key = None -> load key fallback store = fallback.
Proof. intros Hk. unfold load, load_try. now rewrite Hk. Qed.

Lemma storage_keys_differ : STORAGE.ACTIVE <> STORAGE.ENTRIES.
Proof. discriminate. Qed.

Lemma persist_storage st w :
  localStorage (persist st w) =
    match activeJob st with
    | Some a =>
        <[STORAGE.ACTIVE := JSON_stringify (activeJob_to_json a)]>
          (<[STORAGE.ENTRIES := JSON_stringify (entries_to_json (entries st))]>
             (localStorage w))
    | None =>
        delete STORAGE.ACTIVE
          (<[STORAGE.ENTRIES := JSON_stringify (entries_to_json (entries st))]>
             (localStorage w))
    end.
Proof.
  unfold persist, persist_entries, persist_activeJob.
  destruct st as [es [a|] el ji ni], w; reflexivity.
Qed.

(** C4. Persisting a state and loading the store again gives back the
    entries and the active session, field for field; the first render on
    that store starts from them.  No active session is persisted as no
    record at all, and loads as [null]. *)
Theorem persist_then_restore st w :
  let store := localStorage (persist st w) in
  initial_entries store = entries_to_json (entries st)
  /\ initial_activeJob store = activeJob_value (activeJob st)
  /\ entries_of_json (initial_entries store) = Some (entries st)
  /\ activeJob_of_json (initial_activeJob store) = Some (activeJob st)
  /\ (activeJob st = None -> store !! STORAGE.ACTIVE = None)
  /\ (exists st' w', mount (persist st w) = Some (st', w')
        /\ entries st' = entries st /\ activeJob st' = activeJob st).
Proof.
  intros store.
  assert (He : initial_entries store = entries_to_json (entries st)).
  { unfold initial_entries. apply load_stringify; [apply plain_entries|].
    unfold store. rewrite persist_storage. destruct (activeJob st).
    - rewrite lookup_insert_ne by apply storage_keys_differ.
      apply lookup_insert_eq.
    - rewrite lookup_delete_ne by apply storage_keys_differ.
      apply lookup_insert_eq. }
  assert (Ha : initial_activeJob store = activeJob_value (activeJob st)).
  { unfold initial_activeJob, store. rewrite persist_storage.
    destruct (activeJob st) as [a|]; cbn [activeJob_value].
    - apply load_stringify; [apply plain_activeJob|]. apply lookup_insert_eq.
    - apply load_missing. apply lookup_delete_eq. }
  repeat split.
  - exact He.
  - exact Ha.
  - rewrite He. apply entries_of_to_json.
  - rewrite Ha. apply activeJob_of_to_json.
  - intros Hidle. unfold store. rewrite persist_storage, Hidle.
    apply lookup_delete_eq.
  - unfold mount. fold store. rewrite He, Ha.
    rewrite entries_of_to_json, activeJob_of_to_json.
    destruct (activeJob st) as [a|] eqn:Hact.
    + eexists _, _. split; [reflexivity|]. split; reflexivity.
    + eexists _, _. split; [reflexivity|]. split; reflexivity.
Qed.

Lemma load_parsed (store : gmap jsstring jsstring) key fallback raw v :
  store !! key = Some raw -> JSON_parse raw = Some v -> load key fallback store = v.
Proof.
  intros Hk Hp. unfold load, load_try. rewrite Hk.
  destruct raw as [|c r]; [discriminate Hp|]. cbn [truthy_string].
  now rewrite Hp.
Qed.

Lemma load_undecodable (store : gmap jsstring jsstring) key fallback :
  undecodable store key -> load key fallback store = fallback.
Proof.
  intros Hu. unfold load, load_try.
  destruct (store !! key) as [raw|] eqn:Hk; [|reflexivity].
  rewrite (Hu raw Hk). now destruct (truthy_string raw).
Qed.

(** C3, as the code has it.  A record that is missing, empty or not the
    text of a JSON value loads as the fallback of its cell, whatever the
    stored string, and [load] returns in every case; a store with two such
    records starts the component idle with no entry.  A text that parses
    is loaded as the value it denotes, whatever its shape. *)
Theorem undecodable_record_loads_default :
  (forall (store : gmap jsstring jsstring) key fallback,
      undecodable store key -> load key fallback store = fallback)
  /\ (forall (store : gmap jsstring jsstring) key fallback raw v,
        store !! key = Some raw -> JSON_parse raw = Some v ->
        load key fallback store = v)
  /\ (forall w,
        undecodable (localStorage w) STORAGE.ENTRIES ->
        undecodable (localStorage w) STORAGE.ACTIVE ->
        initial_entries (localStorage w) = JArr []
        /\ initial_activeJob (localStorage w) = JNull
        /\ exists w', mount w = Some (mkState [] None 0 [] [], w')).
Proof.
  split; [exact load_undecodable|]. split; [exact load_parsed|].
  intros w He Ha.
  assert (H1 : initial_entries (localStorage w) = JArr [])
    by now apply load_undecodable.
  assert (H2 : initial_activeJob (localStorage w) = JNull)
    by now apply load_undecodable.
  repeat split; [exact H1 | exact H2 |].
  unfold mount. rewrite H1, H2. eexists. reflexivity.
Qed.

Lemma undecodable_record_loads_default_witness :
  let store : gmap jsstring jsstring := {[ STORAGE.ENTRIES := lit "{oops" ]} in
  initial_entries store = JArr [] /\ initial_activeJob store = JNull
  /\ exists w', mount (Sample.world store) = Some (mkState [] None 0 [] [], w').
Proof.
  intros store.
  apply (proj2 (proj2 undecodable_record_loads_default) (Sample.world store)).
  - intros raw Hraw. unfold store in Hraw. cbn [Sample.world localStorage] in Hraw.
    rewrite lookup_singleton_eq in Hraw. injection Hraw as <-.
    vm_compute. reflexivity.
  - intros raw Hraw. unfold store in Hraw. cbn [Sample.world localStorage] in Hraw.
    rewrite lookup_singleton_ne in Hraw by discriminate. discriminate.
Defined.

(** C3 as stated fails: the text [[{}]] parses, to a list of one object
    without any of the fields of an entry, and that list is the initial
    value of the entries, not the empty list; the text [null] makes the
    initial entries [null], which is not a list at all. *)
Lemma ill_shaped_record_is_loaded :
  JSON_parse (lit "[{}]") = Some (JArr [JObj []])
  /\ entries_of_json (JArr [JObj []]) = None
  /\ initial_entries {[ STORAGE.ENTRIES := lit "[{}]" ]} = JArr [JObj []]
  /\ initial_entries {[ STORAGE.ENTRIES := lit "[{}]" ]} <> JArr []
  /\ initial_entries {[ STORAGE.ENTRIES := lit "null" ]} = JNull.
Proof.
  assert (H : initial_entries {[ STORAGE.ENTRIES := lit "[{}]" ]} = JArr [JObj []]).
  { unfold initial_entries. apply (load_parsed _ _ _ (lit "[{}]")).
    - apply lookup_singleton_eq.
    - vm_compute. reflexivity. }
  split; [vm_compute; reflexivity|]. split; [reflexivity|].
  split; [exact H|]. split; [rewrite H; discriminate|].
  unfold initial_entries. apply (load_parsed _ _ _ (lit "null")).
  - apply lookup_singleton_eq.
  - vm_compute. reflexivity.
Qed.

(** ** Own properties *)

Section OwnProperties.

Context {V : Type}.
Implicit Types (o : list (jsstring * V)) (k : jsstring) (v : V).

Lemma own_get_replace o k k' v :
  own_get k' (own_replace k v o) =
    if decide (k' = k) then (fun _ => v) <$> own_get k o else own_get k' o.
Proof.
  induction o as [|[k0 v0] o IH]; cbn [own_replace own_get].
  - now destruct (decide (k' = k)).
  - destruct (decide (k = k0)) as [->|Hne]; cbn [own_get].
    + destruct (decide (k' = k0)) as [->|]; reflexivity.
    + rewrite IH. destruct (decide (k' = k0)) as [->|].
      * destruct (decide (k0 = k)); [congruence | reflexivity].
      * reflexivity.
Qed.

Lemma own_get_insert_index o n k k' v :
  own_get k o = None ->
  own_get k' (insert_index n k v o) =
    if decide (k' = k) then Some v else own_get k' o.
Proof.
  induction o as [|[k0 v0] o IH]; cbn [insert_index own_get]; intros Hk.
  - reflexivity.
  - destruct (decide (k = k0)) as [|Hne]; [discriminate|].
    destruct (array_index k0) as [n'|].
    + destruct (n <? n')%N; cbn [own_get].
      * reflexivity.
      * rewrite IH by assumption.
        destruct (decide (k' = k0)) as [->|]; [|reflexivity].
        destruct (decide (k0 = k)); [congruence | reflexivity].
    + reflexivity.
Qed.

Lemma own_get_app o k k' v :
  own_get k o = None ->
  own_get k' (o ++ [(k, v)]) = if decide (k' = k) then Some v else own_get k' o.
Proof.
  induction o as [|[k0 v0] o IH]; cbn [app own_get]; intros Hk.
  - reflexivity.
  - destruct (decide (k = k0)) as [|Hne]; [discriminate|].
    rewrite IH by assumption.
    destruct (decide (k' = k0)) as [->|]; [|reflexivity].
    destruct (decide (k0 = k)); [congruence | reflexivity].
Qed.

(** Reading after writing. *)
Lemma own_get_set o k k' v :
  own_get k' (own_set k v o) = if decide (k' = k) then Some v else own_get k' o.
Proof.
  unfold own_set. destruct (own_get k o) as [x|] eqn:Hk.
  - rewrite own_get_replace, Hk. reflexivity.
  - destruct (array_index k) as [n|].
    + now apply own_get_insert_index.
    + now apply own_get_app.
Qed.

Lemma own_replace_keys o k v : List.map fst (own_replace k v o) = List.map fst o.
Proof.
  induction o as [|[k0 v0] o IH]; [reflexivity|]. cbn [own_replace].
  destruct (decide (k = k0)); cbn [List.map fst]; [reflexivity | now rewrite IH].
Qed.

Lemma insert_index_perm o n k v : insert_index n k v o ≡ₚ (k, v) :: o.
Proof.
  induction o as [|[k0 v0] o IH]; cbn [insert_index]; [reflexivity|].
  destruct (array_index k0) as [n'|]; [|reflexivity].
  destruct (n <? n')%N; [reflexivity|].
  rewrite IH. apply Permutation_swap.
Qed.

Lemma own_get_None_keys o k : own_get k o = None -> k ∉ List.map fst o.
Proof.
  induction o as [|[k0 v0] o IH]; cbn [own_get List.map fst].
  - intros _. apply not_elem_of_nil.
  - destruct (decide (k = k0)); [discriminate|]. intros Hk.
    apply not_elem_of_cons. auto.
Qed.

(** Writing keeps the keys distinct. *)
Lemma own_set_NoDup o k v :
  NoDup (List.map fst o) -> NoDup (List.map fst (own_set k v o)).
Proof.
  intros Hnd. unfold own_set. destruct (own_get k o) as [x|] eqn:Hk.
  - now rewrite own_replace_keys.
  - apply own_get_None_keys in Hk.
    assert (Hfresh : NoDup (List.map fst ((k, v) :: o)))
      by (cbn [List.map fst]; now apply NoDup_cons).
    destruct (array_index k) as [n|].
    + now rewrite (Permutation_map fst (insert_index_perm o n k v)).
    + rewrite List.map_app. cbn [List.map fst].
      apply NoDup_app. repeat split; auto.
      * intros x Hx Hin. apply list_elem_of_singleton in Hin. now subst.
      * apply NoDup_singleton.
Qed.

(** Reading does not depend on the order of distinct keys. *)
Lemma own_get_perm o o' k :
  NoDup (List.map fst o) -> o ≡ₚ o' -> own_get k o = own_get k o'.
Proof.
  intros Hnd Hp. induction Hp as [|[k0 v0] o o' Hp IH|[k0 v0] [k1 v1] o|o o' o'' Hp1 IH1 Hp2 IH2].
  - reflexivity.
  - cbn [own_get]. cbn [List.map fst] in Hnd. apply NoDup_cons in Hnd as [_ Hnd].
    now rewrite IH.
  - cbn [own_get]. cbn [List.map fst] in Hnd.
    apply NoDup_cons in Hnd as [Hnot _]. apply not_elem_of_cons in Hnot as [Hne _].
    destruct (decide (k = k0)) as [E0|], (decide (k = k1)) as [E1|];
      try reflexivity. congruence.
  - rewrite IH1 by assumption. apply IH2.
    now rewrite <- (Permutation_map fst Hp1).
Qed.

End OwnProperties.

(** ** Sorting *)

Section Sorting.

Context {A : Type} (cmp : A -> A -> Z).
Hypothesis cmp_total : forall a b, cmp a b <= 0 \/ cmp b a <= 0.

Lemma insert_sorted_perm x l : insert_sorted cmp x l ≡ₚ x :: l.
Proof.
  induction l as [|y l IH]; cbn [insert_sorted]; [reflexivity|].
  destruct (cmp x y <=? 0); [reflexivity|].
  rewrite IH. apply Permutation_swap.
Qed.

Lemma sort_perm l : sort cmp l ≡ₚ l.
Proof.
  induction l as [|x l IH]; [reflexivity|].
  cbn [sort fold_right]. fold (sort cmp l).
  now rewrite insert_sorted_perm, IH.
Qed.

Lemma insert_sorted_HdRel a x l :
  cmp a x <= 0 -> HdRel (fun u v => cmp u v <= 0) a l ->
  HdRel (fun u v => cmp u v <= 0) a (insert_sorted cmp x l).
Proof.
  intros Hax Hal. destruct l as [|y l]; cbn [insert_sorted].
  - now constructor.
  - destruct (cmp x y <=? 0); constructor; [assumption|].
    now inversion Hal.
Qed.

Lemma insert_sorted_Sorted x l :
  Sorted (fun u v => cmp u v <= 0) l ->
  Sorted (fun u v => cmp u v <= 0) (insert_sorted cmp x l).
Proof.
  induction 1 as [|y l Hs IH Hhd]; cbn [insert_sorted].
  - repeat constructor.
  - destruct (Z.leb_spec (cmp x y) 0) as [Hxy|Hxy].
    + constructor; [now constructor | now constructor].
    + constructor; [exact IH|].
      apply insert_sorted_HdRel; [|exact Hhd].
      destruct (cmp_total y x); [assumption | lia].
Qed.

Lemma sort_Sorted l : Sorted (fun u v => cmp u v <= 0) (sort cmp l).
Proof.
  induction l as [|x l IH]; [constructor|].
  cbn [sort fold_right]. fold (sort cmp l). now apply insert_sorted_Sorted.
Qed.

End Sorting.

(** ** Daily aggregation *)

Section AggregatorProperties.

Context {platform : Platform}.

Lemma strict_equal_spec a b :
  strict_equal a b = true <-> is_Some b /\ a = b.
Proof.
  unfold strict_equal. destruct a as [x|], b as [y|]; split;
    try discriminate; try (intros [[? ?] ?]; discriminate);
    try (intros [_ ?]; discriminate).
  - intros H. apply Z.eqb_eq in H. subst. split; [eauto | reflexivity].
  - intros [_ H]. injection H as ->. apply Z.eqb_refl.
Qed.

Lemma isToday_spec now ts : isToday now ts = true <-> same_local_day now ts.
Proof.
  unfold isToday, same_local_day.
  rewrite !andb_true_iff, !strict_equal_spec. tauto.
Qed.

Lemma fold_left_sum (l : list Entry) (acc : Z) :
  fold_left (fun sum e => sum + durationSeconds e) l acc
  = acc + fold_left (fun sum e => sum + durationSeconds e) l 0.
Proof.
  revert acc. induction l as [|e l IH]; intros acc; cbn [fold_left]; [lia|].
  rewrite (IH (acc + durationSeconds e)), (IH (0 + durationSeconds e)). lia.
Qed.

Lemma dailyTotal_cons now e es :
  dailyTotal now (e :: es) =
    if isToday now (startTimestamp e)
    then durationSeconds e + dailyTotal now es else dailyTotal now es.
Proof.
  unfold dailyTotal, todayEntries. cbn [List.filter].
  destruct (isToday now (startTimestamp e)); [|reflexivity].
  cbn [fold_left]. now rewrite fold_left_sum.
Qed.

Lemma dailyTotal_app now es1 es2 :
  dailyTotal now (es1 ++ es2) = dailyTotal now es1 + dailyTotal now es2.
Proof.
  induction es1 as [|e es1 IH]; [reflexivity|].
  cbn [app]. rewrite !dailyTotal_cons, IH.
  destruct (isToday now (startTimestamp e)); lia.
Qed.

(** C5. The daily total is the sum of the seconds of the entries that
    start on the local calendar day of the reference instant; an entry
    that starts on another day adds nothing, whatever its duration and
    its end. *)
Theorem dailyTotal_sums_today now es :
  dailyTotal now es = total_on_day now es
  /\ (forall e es1 es2,
        ~ same_local_day now (startTimestamp e) ->
        dailyTotal now (es1 ++ e :: es2) = dailyTotal now (es1 ++ es2)).
Proof.
  split.
  - induction es as [|e es IH]; [reflexivity|].
    rewrite dailyTotal_cons. cbn [total_on_day]. rewrite IH.
    destruct (isToday now (startTimestamp e)) eqn:Ht.
    + apply isToday_spec in Ht. now destruct (decide _).
    + destruct (decide _) as [Hd|]; [|reflexivity].
      apply isToday_spec in Hd. congruence.
  - intros e es1 es2 Hday. rewrite !dailyTotal_app, dailyTotal_cons.
    destruct (isToday now (startTimestamp e)) eqn:Ht; [|reflexivity].
    apply isToday_spec in Ht. contradiction.
Qed.

(** The key [__proto__] never becomes an own property of the map. *)
Lemma accumulate_no_proto m e :
  own_get (lit "__proto__") m = None ->
  own_get (lit "__proto__") (accumulate m e) = None.
Proof.
  intros Hm. unfold accumulate, assign.
  destruct (own_get (jobNumber e) m) as [x|] eqn:Hj.
  - rewrite own_get_replace, Hj.
    destruct (decide (lit "__proto__" = jobNumber e)) as [Heq|]; [|exact Hm].
    rewrite <- Heq in Hj. congruence.
  - destruct (decide (jobNumber e = lit "__proto__")) as [Heq|Hne]; [exact Hm|].
    rewrite own_get_set.
    destruct (decide (lit "__proto__" = jobNumber e)); [congruence | exact Hm].
Qed.

Lemma fold_accumulate_no_proto l : forall m,
  own_get (lit "__proto__") m = None ->
  own_get (lit "__proto__") (fold_left accumulate l m) = None.
Proof.
  induction l as [|e l IH]; intros m Hm; [exact Hm|].
  cbn [fold_left]. apply IH. now apply accumulate_no_proto.
Qed.

(** C6, at the job number [__proto__].  Reading [map[key]] yields the
    inherited [Object.prototype], the sum is a string, and the inherited
    setter ignores it: an entry of today of that job is not in the
    summary, whatever the other entries; alone, it leaves the summary
    empty. *)
Theorem jobTotals_misses_proto now es e :
  In e es ->
  isToday now (startTimestamp e) = true ->
  jobNumber e = lit "__proto__" ->
  own_get (jobNumber e) (jobTotals now es) = None
  /\ jobTotals now [e] = [].
Proof.
  intros _ Ht Hjob. split.
  - rewrite Hjob. unfold jobTotals.
    apply own_get_not_key. intros Hin.
    rewrite (Permutation_map fst (sort_perm _ _)) in Hin.
    apply list_elem_of_fmap in Hin as ([k v] & Hk & Hin). cbn [fst] in Hk. subst k.
    pose proof (fold_accumulate_no_proto (todayEntries now es) [] eq_refl) as Hno.
    apply own_get_None_keys in Hno. apply Hno.
    apply list_elem_of_fmap. exists (lit "__proto__", v). split; [reflexivity | exact Hin].
  - unfold jobTotals, todayEntries.
    cbn [List.filter]. rewrite Ht. cbn [fold_left].
    unfold accumulate. rewrite Hjob. reflexivity.
Qed.

(** C10, at the job number [__proto__].  The seconds of the entry are in
    the daily total and in no total of the summary. *)
Theorem jobTotals_sum_misses_proto now e :
  isToday now (startTimestamp e) = true ->
  jobNumber e = lit "__proto__" ->
  sum_totals (jobTotals now [e]) = Some 0
  /\ dailyTotal now [e] = durationSeconds e.
Proof.
  intros Ht Hjob. split.
  - unfold jobTotals, todayEntries.
    cbn [List.filter]. rewrite Ht. cbn [fold_left].
    unfold accumulate. rewrite Hjob. reflexivity.
  - rewrite dailyTotal_cons, Ht. unfold dailyTotal. simpl. lia.
Qed.

(** At the job number [constructor] the total is a string: the source
    text of the function [Object] followed by the digits of the
    seconds. *)
Lemma jobTotals_constructor now e :
  isToday now (startTimestamp e) = true ->
  jobNumber e = lit "constructor" ->
  jobTotals now [e] =
    [(lit "constructor",
      VStr (nativeSource (lit "Object") ++ number_units (durationSeconds e)))].
Proof.
  intros Ht Hjob. unfold jobTotals, todayEntries.
  cbn [List.filter]. rewrite Ht. cbn [fold_left].
  unfold accumulate. rewrite Hjob. reflexivity.
Qed.

End AggregatorProperties.

Lemma jobTotals_misses_proto_witness :
  @isToday Sample.platform Sample.later_that_day
           (startTimestamp Sample.proto_entry) = true
  /\ @jobTotals Sample.platform Sample.later_that_day [Sample.proto_entry] = [].
Proof.
  split; [vm_compute; reflexivity|].
  apply (@jobTotals_misses_proto Sample.platform
           Sample.later_that_day [Sample.proto_entry] Sample.proto_entry);
    [left; reflexivity | vm_compute; reflexivity | vm_compute; reflexivity].
Defined.

Lemma jobTotals_sum_misses_proto_witness :
  sum_totals (@jobTotals Sample.platform Sample.later_that_day
                         [Sample.proto_entry]) = Some 0
  /\ @dailyTotal Sample.platform Sample.later_that_day [Sample.proto_entry] = 300.
Proof.
  apply (@jobTotals_sum_misses_proto Sample.platform
           Sample.later_that_day Sample.proto_entry);
    vm_compute; reflexivity.
Defined.


(** ** The summary by job *)

Lemma job_seconds_app k l1 l2 :
  job_seconds k (l1 ++ l2) = job_seconds k l1 + job_seconds k l2.
Proof.
  induction l1 as [|e l1 IH]; cbn [app job_seconds]; [reflexivity|].
  rewrite IH. lia.
Qed.

Lemma job_seconds_absent k l : k ∉ List.map jobNumber l -> job_seconds k l = 0.
Proof.
  induction l as [|e l IH]; cbn [List.map job_seconds]; [reflexivity|].
  intros Hk. apply not_elem_of_cons in Hk as [Hne Hk].
  destruct (decide (jobNumber e = k)); [congruence|]. rewrite IH by assumption.
  reflexivity.
Qed.

Lemma sum_totals_replace m j z z' t :
  sum_totals m = Some t -> own_get j m = Some (VNum z) ->
  sum_totals (own_replace j (VNum z') m) = Some (t - z + z').
Proof.
  revert t. induction m as [|[k v] m IH]; intros t Ht Hj; [discriminate|].
  cbn [sum_totals own_replace own_get] in *.
  destruct v as [y| | |]; try discriminate.
  destruct (sum_totals m) as [t'|] eqn:Hm; [|discriminate].
  injection Ht as <-.
  destruct (decide (j = k)) as [->|Hne].
  - injection Hj as ->. cbn [sum_totals]. rewrite Hm. f_equal. lia.
  - cbn [sum_totals]. rewrite (IH t' eq_refl Hj). f_equal. lia.
Qed.

Lemma sum_totals_perm m m' t :
  m ≡ₚ m' -> sum_totals m = Some t -> sum_totals m' = Some t.
Proof.
  intros Hp. revert t.
  induction Hp as [|[k v] m m' Hp IH|[k0 v0] [k1 v1] m|m m' m'' _ IH1 _ IH2];
    intros t Ht.
  - exact Ht.
  - cbn [sum_totals] in *. destruct v; try discriminate.
    destruct (sum_totals m) as [t'|]; [|discriminate].
    now rewrite (IH t' eq_refl).
  - cbn [sum_totals] in *. destruct v0, v1; try discriminate.
    destruct (sum_totals m) as [t'|]; [|discriminate].
    injection Ht as <-. f_equal. lia.
  - auto.
Qed.

Lemma sum_totals_app m j z t :
  sum_totals m = Some t -> sum_totals (m ++ [(j, VNum z)]) = Some (t + z).
Proof.
  intros Ht. apply (sum_totals_perm ((j, VNum z) :: m)).
  - apply Permutation_cons_append.
  - cbn [sum_totals]. rewrite Ht. f_equal. lia.
Qed.

Lemma sum_totals_set m j z t :
  sum_totals m = Some t -> own_get j m = None ->
  sum_totals (own_set j (VNum z) m) = Some (t + z).
Proof.
  intros Ht Hj. unfold own_set. rewrite Hj.
  destruct (array_index j) as [n|]; [|now apply sum_totals_app].
  apply (sum_totals_perm ((j, VNum z) :: m)).
  - symmetry. apply insert_index_perm.
  - cbn [sum_totals]. rewrite Ht. f_equal. lia.
Qed.

Lemma own_name_not_proto e : own_name e -> jobNumber e <> lit "__proto__".
Proof. unfold own_name. intros He Hp. rewrite Hp in He. discriminate He. Qed.

Section SummaryProperties.

Context {platform : Platform}.

(** One step of the [forEach], on a job number of its own name: the map
    is written under that key with the previous total plus the seconds. *)
Lemma accumulate_own_name m e l0 :
  own_name e ->
  (forall k, own_get k m = summary_of l0 k) ->
  accumulate m e =
    own_set (jobNumber e) (VNum (job_seconds (jobNumber e) l0 + durationSeconds e)) m.
Proof.
  intros He Hm. unfold accumulate, get, assign.
  pose proof (own_name_not_proto e He) as Hp. unfold own_name in He.
  rewrite He. rewrite (Hm (jobNumber e)). unfold summary_of, own_set.
  rewrite (Hm (jobNumber e)). unfold summary_of.
  destruct (decide (jobNumber e ∈ List.map jobNumber l0)) as [Hin|Hout].
  - cbn [or_zero truthy add].
    destruct (Z.eqb_spec (job_seconds (jobNumber e) l0) 0) as [->|];
      reflexivity.
  - cbn [or_zero add]. rewrite (job_seconds_absent _ _ Hout).
    destruct (decide (jobNumber e = lit "__proto__")); [contradiction|].
    reflexivity.
Qed.

Lemma accumulate_summary m e l0 :
  own_name e ->
  (forall k, own_get k m = summary_of l0 k) ->
  forall k, own_get k (accumulate m e) = summary_of (l0 ++ [e]) k.
Proof.
  intros He Hm k. rewrite (accumulate_own_name m e l0 He Hm).
  rewrite own_get_set. unfold summary_of.
  rewrite List.map_app, job_seconds_app. cbn [List.map job_seconds].
  destruct (decide (k = jobNumber e)) as [->|Hne].
  - destruct (decide (jobNumber e = jobNumber e)); [|congruence].
    destruct (decide _) as [_|Hout]; [f_equal; f_equal; lia|].
    exfalso. apply Hout. apply elem_of_app. right. left.
  - rewrite Hm. unfold summary_of.
    destruct (decide (jobNumber e = k)); [congruence|].
    destruct (decide (k ∈ List.map jobNumber l0)) as [Hin|Hout].
    + destruct (decide _) as [_|Hout']; [f_equal; f_equal; lia|].
      exfalso. apply Hout'. apply elem_of_app. now left.
    + destruct (decide _) as [Hin'|_]; [|reflexivity].
      apply elem_of_app in Hin' as [?|Hin']; [contradiction|].
      apply list_elem_of_singleton in Hin'. congruence.
Qed.

Lemma fold_accumulate_summary l : forall m l0,
  Forall own_name l ->
  (forall k, own_get k m = summary_of l0 k) ->
  forall k, own_get k (fold_left accumulate l m) = summary_of (l0 ++ l) k.
Proof.
  induction l as [|e l IH]; intros m l0 Hl Hm k.
  - now rewrite app_nil_r.
  - apply Forall_cons in Hl as [He Hl]. cbn [fold_left].
    rewrite (IH (accumulate m e) (l0 ++ [e]) Hl (accumulate_summary m e l0 He Hm)).
    now rewrite <- app_assoc.
Qed.

Lemma fold_accumulate_sum l : forall m l0 t,
  Forall own_name l ->
  (forall k, own_get k m = summary_of l0 k) ->
  sum_totals m = Some t ->
  sum_totals (fold_left accumulate l m)
  = Some (t + fold_left (fun sum e => sum + durationSeconds e) l 0).
Proof.
  induction l as [|e l IH]; intros m l0 t Hl Hm Ht.
  - cbn [fold_left]. rewrite Ht. f_equal. lia.
  - apply Forall_cons in Hl as [He Hl]. cbn [fold_left].
    rewrite (IH (accumulate m e) (l0 ++ [e]) (t + durationSeconds e) Hl
               (accumulate_summary m e l0 He Hm)).
    + rewrite (fold_left_sum l (0 + durationSeconds e)). f_equal. lia.
    + rewrite (accumulate_own_name m e l0 He Hm).
      pose proof (Hm (jobNumber e)) as Hj. unfold summary_of in Hj.
      destruct (decide _) as [Hin|Hout].
      * unfold own_set. rewrite Hj.
        rewrite (sum_totals_replace m _ _ _ t Ht Hj). f_equal. lia.
      * rewrite (sum_totals_set m _ _ t Ht Hj).
        rewrite (job_seconds_absent _ _ Hout). f_equal.
Qed.

(** The keys of the map are distinct, whatever the entries. *)
Lemma accumulate_NoDup m e :
  NoDup (List.map fst m) -> NoDup (List.map fst (accumulate m e)).
Proof.
  intros Hnd. unfold accumulate, assign.
  destruct (own_get (jobNumber e) m).
  - now rewrite own_replace_keys.
  - destruct (decide _); [assumption|]. now apply own_set_NoDup.
Qed.

Lemma fold_accumulate_NoDup l : forall m,
  NoDup (List.map fst m) -> NoDup (List.map fst (fold_left accumulate l m)).
Proof.
  induction l as [|e l IH]; intros m Hnd; [exact Hnd|].
  cbn [fold_left]. apply IH. now apply accumulate_NoDup.
Qed.

End SummaryProperties.

Section SummaryOfToday.

Context {platform : Platform}.

Lemma job_seconds_today now k es :
  job_seconds k (todayEntries now es) = job_total_on_day now k es.
Proof.
  induction es as [|e es IH]; [reflexivity|].
  unfold todayEntries in *. cbn [List.filter job_total_on_day].
  destruct (isToday now (startTimestamp e)) eqn:Ht.
  - apply isToday_spec in Ht. cbn [job_seconds]. rewrite IH.
    destruct (decide (jobNumber e = k)), (decide (_ /\ _)) as [|Hn];
      try reflexivity; try tauto.
  - rewrite IH. destruct (decide (_ /\ _)) as [[Hd _]|]; [|reflexivity].
    apply isToday_spec in Hd. congruence.
Qed.

(** The job numbers of the summary are pairwise distinct, whatever the
    entries. *)
Lemma jobTotals_distinct now es : NoDup (List.map fst (jobTotals now es)).
Proof.
  unfold jobTotals. rewrite (Permutation_map fst (sort_perm _ _)).
  apply fold_accumulate_NoDup. constructor.
Qed.

(** When no job number of today is the name of a property of
    [Object.prototype], the summary is as the specification describes it:
    every job of today with the sum of its seconds and nothing else, in
    the order of the collation, and the totals add up to the daily total. *)
Lemma jobTotals_of_own_names now es :
  consistent localeCompare ->
  Forall own_name (todayEntries now es) ->
  (forall k,
      own_get k (jobTotals now es) =
        if decide (k ∈ List.map jobNumber (todayEntries now es))
        then Some (VNum (job_total_on_day now k es)) else None)
  /\ StronglySorted (fun a b => localeCompare (fst a) (fst b) <= 0) (jobTotals now es)
  /\ sum_totals (jobTotals now es) = Some (dailyTotal now es).
Proof.
  intros [Htotal Htrans] Hown. split; [|split].
  - intros k.
    assert (Hp : jobTotals now es ≡ₚ fold_left accumulate (todayEntries now es) [])
      by apply sort_perm.
    rewrite (own_get_perm _ _ k (jobTotals_distinct now es) Hp).
    rewrite (fold_accumulate_summary _ [] [] Hown) by reflexivity.
    cbn [app]. unfold summary_of. now rewrite job_seconds_today.
  - apply Sorted_StronglySorted.
    + intros a b c. apply Htrans.
    + unfold jobTotals. apply sort_Sorted. intros a b. apply Htotal.
  - unfold jobTotals.
    apply (sum_totals_perm (fold_left accumulate (todayEntries now es) [])).
    + symmetry. apply sort_perm.
    + now rewrite (fold_accumulate_sum _ [] [] 0 Hown).
Qed.

End SummaryOfToday.

(** The scenario of the specification: two entries of today for JOB-1, of
    300 and 600 seconds, and one of the day before. *)
Example jobTotals_scenario :
  @jobTotals Sample.platform Sample.later_that_day
    [mkEntry (lit "id-2") (lit "JOB-1") 1700000100000 1700000700000 600 [];
     mkEntry (lit "id-1") (lit "JOB-2") 1699900000000 1699900060000 60 [];
     mkEntry (lit "id-0") (lit "JOB-1") 1700000000000 1700000300000 300 []]
  = [(lit "JOB-1", VNum 900)].
Proof. vm_compute. reflexivity. Qed.

(** A session from an empty store: JOB-1 is typed and started, then
    stopped at the third reading of the clock, two minutes later; the
    store then restores to the same entries and to no active session. *)
Example start_then_stop_scenario :
  let s0 := (mkState [] None 0 (lit "JOB-1") [], Sample.world ∅) in
  let s2 := dispatch handleStop (dispatch handleStart s0) in
  entries (fst s2)
  = [mkEntry (lit "id-0") (lit "JOB-1") 1700000000000 1700000120000 120 []]
  /\ activeJob (fst s2) = None
  /\ entries_of_json (initial_entries (localStorage (snd s2))) = Some (entries (fst s2))
  /\ initial_activeJob (localStorage (snd s2)) = JNull.
Proof. vm_compute. repeat split; reflexivity. Qed.

(** ** The sample collation orders *)

Lemma compare_units_total a : forall b,
  Sample.compare_units a b <= 0 \/ Sample.compare_units b a <= 0.
Proof.
  induction a as [|x a IH]; intros [|y b]; cbn [Sample.compare_units];
    try (left; lia); try (right; lia).
  destruct (N.ltb_spec x y), (N.ltb_spec y x); try (left; lia); try (right; lia).
  apply IH.
Qed.

Lemma compare_units_trans a : forall b c,
  Sample.compare_units a b <= 0 -> Sample.compare_units b c <= 0 ->
  Sample.compare_units a c <= 0.
Proof.
  induction a as [|x a IH]; intros [|y b] [|z c]; cbn [Sample.compare_units];
    try lia.
  destruct (N.ltb_spec x y), (N.ltb_spec y x), (N.ltb_spec y z), (N.ltb_spec z y),
    (N.ltb_spec x z), (N.ltb_spec z x); try lia.
  apply IH.
Qed.

Lemma compare_units_consistent : consistent Sample.compare_units.
Proof.
  split; [intros a b; apply compare_units_total|].
  intros a b c. apply compare_units_trans.
Qed.

(** The summary of the scenario above, obtained from the general
    statement: JOB-1 holds the 900 seconds of its two entries of today,
    and the totals add up to the daily total. *)
Example jobTotals_of_own_names_scenario :
  let es :=
    [mkEntry (lit "id-2") (lit "JOB-1") 1700000100000 1700000700000 600 [];
     mkEntry (lit "id-1") (lit "JOB-2") 1699900000000 1699900060000 60 [];
     mkEntry (lit "id-0") (lit "JOB-1") 1700000000000 1700000300000 300 []] in
  own_get (lit "JOB-1") (@jobTotals Sample.platform Sample.later_that_day es)
  = Some (VNum 900)
  /\ sum_totals (@jobTotals Sample.platform Sample.later_that_day es)
     = Some (@dailyTotal Sample.platform Sample.later_that_day es).
Proof.
  intros es.
  destruct (@jobTotals_of_own_names Sample.platform Sample.later_that_day es
              compare_units_consistent) as (Hget & _ & Hsum).
  - vm_compute. repeat constructor.
  - split; [|exact Hsum]. rewrite Hget. vm_compute. reflexivity.
Defined.

(** ** Write-through *)




(* ===================================================================== *)
(** * Further properties of the component *)
(* ===================================================================== *)

(** ** Durations as text *)

Lemma uint_units_digits d : Forall is_digit (uint_units d).
Proof.
  induction d; cbn [uint_units]; constructor; auto; unfold is_digit; lia.
Qed.

Lemma number_units_nonneg z :
  0 <= z -> exists d, number_units z = uint_units d /\ canonical d.
Proof.
  intros Hz. unfold number_units. destruct z as [|p|p]; [| |lia]; cbn [Z.to_int].
  - exists (D0 Nil). split; [reflexivity | exact I].
  - exists (Pos.to_uint p). split; [reflexivity | apply to_uint_canonical].
Qed.

(** The digits of distinct integers are distinct. *)
Lemma number_units_inj a b : number_units a = number_units b -> a = b.
Proof.
  intros H.
  pose proof (parse_number_units a [] I) as Ha.
  pose proof (parse_number_units b [] I) as Hb.
  rewrite H, Hb in Ha. now injection Ha.
Qed.

Lemma padStart_two_digits u :
  u <> [] -> Forall is_digit u ->
  padStart 2 (lit "0") u <> [] /\ Forall is_digit (padStart 2 (lit "0") u)
  /\ (2 <= length (padStart 2 (lit "0") u))%nat.
Proof.
  intros Hu Hd. destruct u as [|c [|c' u]]; [congruence| |].
  - cbn. repeat split; try discriminate; try lia.
    constructor; [unfold is_digit; lia | exact Hd].
  - cbn. repeat split; try discriminate; try lia. exact Hd.
Qed.

(** Two digits at least, and distinct texts for distinct numbers. *)
Lemma padStart_number_inj a b :
  0 <= a -> 0 <= b ->
  padStart 2 (lit "0") (number_units a) = padStart 2 (lit "0") (number_units b) ->
  a = b.
Proof.
  intros Ha Hb.
  destruct (number_units_nonneg a Ha) as (da & Eda & Hca).
  destruct (number_units_nonneg b Hb) as (db & Edb & Hcb).
  intros H. apply number_units_inj. rewrite Eda, Edb in *. clear Eda Edb.
  assert (Hone : forall d, canonical d ->
            forall c r, uint_units d = 0x30%N :: c :: r -> False).
  { intros d Hc c r Hd. destruct d as [|d|d|d|d|d|d|d|d|d|d]; try discriminate.
    destruct d; try contradiction; discriminate. }
  assert (Hne : forall d, canonical d -> uint_units d <> []).
  { intros d Hc. destruct d; try discriminate. contradiction. }
  pose proof (Hne da Hca) as Hna. pose proof (Hne db Hcb) as Hnb.
  destruct (uint_units da) as [|xa [|ya ra]] eqn:Ea; [congruence| |];
    destruct (uint_units db) as [|xb [|yb rb]] eqn:Eb; try congruence;
    cbn in H.
  - injection H as <-. reflexivity.
  - injection H as <- <- <-. exfalso. exact (Hone db Hcb _ _ Eb).
  - injection H as -> -> ->. exfalso. exact (Hone da Hca _ _ Ea).
  - exact H.
Qed.

(** Where a text in digits ends is where its first colon stands. *)
Lemma digits_until_colon a : forall a' r r',
  Forall is_digit a -> Forall is_digit a' ->
  a ++ 0x3A%N :: r = a' ++ 0x3A%N :: r' -> a = a' /\ r = r'.
Proof.
  induction a as [|c a IH]; intros [|c' a'] r r' Ha Ha' H; cbn [app] in H.
  - injection H as <-. auto.
  - injection H as <- _. apply Forall_cons in Ha' as [Hc _].
    unfold is_digit in Hc. lia.
  - injection H as -> _. apply Forall_cons in Ha as [Hc _].
    unfold is_digit in Hc. lia.
  - injection H as <- H. apply Forall_cons in Ha as [_ Ha].
    apply Forall_cons in Ha' as [_ Ha'].
    destruct (IH a' r r' Ha Ha' H) as [-> ->]. auto.
Qed.

Lemma formatDuration_unfold t :
  formatDuration t =
    padStart 2 (lit "0") (number_units (t / 3600))
    ++ 0x3A%N :: padStart 2 (lit "0") (number_units (Z.rem t 3600 / 60))
    ++ 0x3A%N :: padStart 2 (lit "0") (number_units (Z.rem t 60)).
Proof. reflexivity. Qed.

Lemma duration_fields t :
  0 <= t ->
  0 <= t / 3600 /\ 0 <= Z.rem t 3600 / 60 < 60 /\ 0 <= Z.rem t 60 < 60
  /\ t = 3600 * (t / 3600) + 60 * (Z.rem t 3600 / 60) + Z.rem t 60.
Proof.
  intros Ht. rewrite !Z.rem_mod_nonneg by lia.
  split; [apply Z.div_pos; lia|]. split; [|split].
  - pose proof (Z.mod_pos_bound t 3600 ltac:(lia)).
    split; [apply Z.div_pos; lia | apply Z.div_lt_upper_bound; lia].
  - apply Z.mod_pos_bound. lia.
  - pose proof (Z.div_mod t 3600 ltac:(lia)) as H1.
    pose proof (Z.div_mod (t mod 3600) 60 ltac:(lia)) as H2.
    assert (H3 : (t mod 3600) mod 60 = t mod 60).
    { symmetry. rewrite (Z.div_mod t 3600) at 1 by lia.
      replace (3600 * (t / 3600) + t mod 3600)
        with (t mod 3600 + (60 * (t / 3600)) * 60) by lia.
      apply Z.mod_add. lia. }
    lia.
Qed.

Lemma field_digits v :
  0 <= v ->
  Forall is_digit (padStart 2 (lit "0") (number_units v)).
Proof.
  intros Hv. destruct (number_units_nonneg v Hv) as (d & -> & Hc).
  apply padStart_two_digits; [|apply uint_units_digits].
  destruct d; try discriminate. contradiction.
Qed.

(** X1. The text of a duration that is not negative is [h:m:s], each field
    in digits, two at least, with minutes and seconds below 60 and
    [3600 h + 60 m + s] the duration; durations that differ have texts
    that differ. *)
Theorem formatDuration_reads_back t :
  0 <= t ->
  (exists h m s,
      formatDuration t =
        padStart 2 (lit "0") (number_units h)
        ++ 0x3A%N :: padStart 2 (lit "0") (number_units m)
        ++ 0x3A%N :: padStart 2 (lit "0") (number_units s)
      /\ 0 <= h /\ 0 <= m < 60 /\ 0 <= s < 60
      /\ t = 3600 * h + 60 * m + s)
  /\ (forall t', 0 <= t' -> formatDuration t = formatDuration t' -> t = t').
Proof.
  intros Ht. split.
  - exists (t / 3600), (Z.rem t 3600 / 60), (Z.rem t 60).
    split; [apply formatDuration_unfold | apply duration_fields; exact Ht].
  - intros t' Ht' H. rewrite !formatDuration_unfold in H.
    destruct (duration_fields t Ht) as (Hh & Hm & Hs & Hsum).
    destruct (duration_fields t' Ht') as (Hh' & Hm' & Hs' & Hsum').
    apply digits_until_colon in H as [H1 H]; try (apply field_digits; lia).
    apply digits_until_colon in H as [H2 H3]; try (apply field_digits; lia).
    apply padStart_number_inj in H1, H2, H3; lia.
Qed.

Lemma formatDuration_reads_back_witness :
  0 <= 125
  /\ formatDuration 125 = lit "00:02:05"
  /\ (forall t', 0 <= t' -> formatDuration 125 = formatDuration t' -> 125 = t').
Proof.
  split; [lia|]. split; [reflexivity|].
  exact (proj2 (formatDuration_reads_back 125 ltac:(lia))).
Defined.

Lemma two_digit_width v :
  0 <= v < 100 -> length (padStart 2 (lit "0") (number_units v)) = 2%nat.
Proof.
  intros Hv.
  assert (H : forallb (fun n => (length (padStart 2 (lit "0")
                                    (number_units (Z.of_nat n))) =? 2)%nat)
                      (seq 0 100) = true) by (vm_compute; reflexivity).
  rewrite forallb_forall in H. specialize (H (Z.to_nat v)).
  rewrite Z2Nat.id in H by lia. apply Nat.eqb_eq, H. apply in_seq. lia.
Qed.

(** X2. Below a hundred hours the text has the eight code units of
    [hh:mm:ss]. *)
Theorem formatDuration_width t :
  0 <= t < 360000 -> length (formatDuration t) = 8%nat.
Proof.
  intros Ht. rewrite formatDuration_unfold.
  destruct (duration_fields t ltac:(lia)) as (Hh & Hm & Hs & Hsum).
  rewrite !length_app. cbn [length]. rewrite !length_app. cbn [length].
  rewrite !two_digit_width by lia. reflexivity.
Qed.

Lemma formatDuration_width_witness :
  0 <= 359999 < 360000 /\ length (formatDuration 359999) = 8%nat.
Proof.
  split; [lia|]. apply (formatDuration_width 359999). lia.
Defined.

(** X3. A negative duration has negative hours, and its text starts with a
    minus sign: it is not of the form [hh:mm:ss]. *)
Theorem formatDuration_negative t :
  t < 0 -> exists r, formatDuration t = 0x2D%N :: r.
Proof.
  intros Ht. rewrite formatDuration_unfold.
  assert (Hh : t / 3600 < 0) by (apply Z.div_lt_upper_bound; lia).
  destruct (t / 3600) as [|p|p] eqn:E; try lia.
  unfold number_units. cbn [Z.to_int].
  destruct (uint_units_head (Pos.to_uint p) (Unsigned.to_uint_nonnil p))
    as (c & r & -> & _).
  eexists. reflexivity.
Qed.

Lemma formatDuration_negative_witness :
  -3 < 0 /\ exists r, formatDuration (-3) = 0x2D%N :: r.
Proof.
  split; [lia|]. apply (formatDuration_negative (-3)). lia.
Defined.

(** ** Trimming, again *)

Lemma trimStart_fixed s :
  match s with [] => True | c :: _ => is_whitespace c = false end ->
  trimStart s = s.
Proof. destruct s as [|c s]; [reflexivity|]. cbn [trimStart]. now intros ->. Qed.

Lemma trimStart_head s :
  match trimStart s with [] => True | c :: _ => is_whitespace c = false end.
Proof.
  induction s as [|c s IH]; [exact I|]. cbn [trimStart].
  destruct (is_whitespace c) eqn:Hc; [exact IH | exact Hc].
Qed.

Lemma trimStart_idem s : trimStart (trimStart s) = trimStart s.
Proof. apply trimStart_fixed, trimStart_head. Qed.

Lemma trimStart_snoc l c :
  is_whitespace c = false -> trimStart (l ++ [c]) = trimStart l ++ [c].
Proof.
  intros Hc. induction l as [|x l IH]; cbn [app trimStart].
  - now rewrite Hc.
  - destruct (is_whitespace x); [exact IH | reflexivity].
Qed.

Lemma trimEnd_head c t :
  is_whitespace c = false -> exists u, trimEnd (c :: t) = c :: u.
Proof.
  intros Hc. unfold trimEnd. cbn [rev]. rewrite (trimStart_snoc _ _ Hc).
  rewrite rev_app_distr. cbn [rev app]. eauto.
Qed.

Lemma trimEnd_idem t : trimEnd (trimEnd t) = trimEnd t.
Proof. unfold trimEnd. now rewrite rev_involutive, trimStart_idem. Qed.

(** Trimming twice is trimming once. *)
Lemma trim_idem s : trim (trim s) = trim s.
Proof.
  unfold trim. pose proof (trimStart_head s) as Hh.
  destruct (trimStart s) as [|c t] eqn:E; [reflexivity|].
  destruct (trimEnd_head c t Hh) as [u Hu]. rewrite Hu.
  rewrite (trimStart_fixed (c :: u) Hh). rewrite <- Hu. apply trimEnd_idem.
Qed.

(** ** One event at a time, the other handlers *)

Lemma dispatch_delete i st w :
  dispatch (handleDelete i) (st, w) =
    (mkState (List.filter (fun e => negb (bool_decide (id e = i))) (entries st))
             (activeJob st) (elapsed st) (jobInput st) (notesInput st),
     with_storage
       (<[STORAGE.ENTRIES :=
            JSON_stringify
              (entries_to_json
                 (List.filter (fun e => negb (bool_decide (id e = i))) (entries st)))]>
          (localStorage w)) w).
Proof. destruct st, w. reflexivity. Qed.

Lemma dispatch_interval_running st w a :
  activeJob st = Some a ->
  dispatch interval (st, w) =
    (mkState (entries st) (activeJob st)
             ((clock w (reads w) - activeStartTimestamp a) / 1000)
             (jobInput st) (notesInput st),
     mkWorld (clock w) (S (reads w)) (uuids w) (drawn w) (answers w) (asked w)
             (localStorage w)).
Proof. intros Ha. destruct st, w. simpl in *. subst. reflexivity. Qed.

Lemma dispatch_interval_idle st w :
  activeJob st = None -> dispatch interval (st, w) = (st, w).
Proof. intros Ha. destruct st, w. simpl in *. subst. reflexivity. Qed.

Lemma dispatch_clear_declined st w :
  answers w (asked w) = false ->
  dispatch handleClearAll (st, w) =
    (st, mkWorld (clock w) (reads w) (uuids w) (drawn w) (answers w)
                 (S (asked w)) (localStorage w)).
Proof.
  intros Hno. unfold dispatch, handleClearAll. rewrite M_bind_run.
  unfold confirm. rewrite Hno. destruct st, w. reflexivity.
Qed.

Lemma dispatch_clear_confirmed st w :
  answers w (asked w) = true ->
  dispatch handleClearAll (st, w) =
    (mkState [] None (if is_null (activeJob st) then elapsed st else 0)
             (jobInput st) [],
     mkWorld (clock w) (reads w) (uuids w) (drawn w) (answers w) (S (asked w))
             (if is_null (activeJob st)
              then <[STORAGE.ENTRIES := JSON_stringify (entries_to_json [])]>
                     (localStorage w)
              else delete STORAGE.ACTIVE
                     (<[STORAGE.ENTRIES := JSON_stringify (entries_to_json [])]>
                        (localStorage w)))).
Proof.
  intros Hyes. unfold dispatch, handleClearAll. rewrite M_bind_run.
  unfold confirm. rewrite Hyes. destruct st as [es [a|] el ji ni], w; reflexivity.
Qed.

Lemma dispatch_type_job s st w :
  dispatch (changeJobInput s) (st, w) =
    (mkState (entries st) (activeJob st) (elapsed st) s (notesInput st), w).
Proof. destruct st, w. reflexivity. Qed.

Lemma dispatch_type_notes s st w :
  dispatch (changeNotesInput s) (st, w) =
    (mkState (entries st) (activeJob st) (elapsed st) (jobInput st) s, w).
Proof. destruct st, w. reflexivity. Qed.

Lemma run_cons ev evs sw : run (ev :: evs) sw = run evs (step ev sw).
Proof. reflexivity. Qed.

(** ** Deleting *)

(** X4. After a delete no entry has the identifier; the entries of other
    identifiers stay, in their order; the session, the reading and the
    form are untouched; and a delete of an identifier that no entry has
    leaves the whole state as it was. *)
Theorem delete_removes_exactly i st w :
  let st' := fst (step (Delete i) (st, w)) in
  Forall (fun e => id e <> i) (entries st')
  /\ (forall e, In e (entries st) -> id e <> i -> In e (entries st'))
  /\ sublist (entries st') (entries st)
  /\ activeJob st' = activeJob st /\ elapsed st' = elapsed st
  /\ jobInput st' = jobInput st /\ notesInput st' = notesInput st
  /\ (Forall (fun e => id e <> i) (entries st) -> st' = st).
Proof.
  unfold step. cbn [handler]. rewrite dispatch_delete. cbn [fst entries activeJob
    elapsed jobInput notesInput].
  split; [|split; [|split]].
  - apply Forall_forall. intros e He. apply list_elem_of_In, filter_In in He as [_ He].
    apply negb_true_iff, bool_decide_eq_false in He. exact He.
  - intros e He Hid. apply filter_In. split; [exact He|].
    apply negb_true_iff, bool_decide_eq_false. exact Hid.
  - apply filter_sublist.
  - repeat split; try reflexivity.
    intros Hall. destruct st as [es a el ji ni]. cbn [entries]. f_equal.
    cbn [entries] in Hall. induction Hall as [|e es He _ IH]; [reflexivity|].
    cbn [List.filter]. rewrite bool_decide_eq_false_2 by exact He.
    cbn [negb]. now rewrite IH.
Qed.

Lemma filter_filter_comm {A} (f g : A -> bool) l :
  List.filter f (List.filter g l) = List.filter g (List.filter f l).
Proof.
  induction l as [|x l IH]; [reflexivity|]. cbn [List.filter].
  destruct (f x) eqn:Hf, (g x) eqn:Hg; cbn [List.filter];
    rewrite ?Hf, ?Hg, ?IH; reflexivity.
Qed.

Lemma filter_filter_same {A} (f : A -> bool) l :
  List.filter f (List.filter f l) = List.filter f l.
Proof.
  induction l as [|x l IH]; [reflexivity|]. cbn [List.filter].
  destruct (f x) eqn:Hf; cbn [List.filter]; rewrite ?Hf, ?IH; reflexivity.
Qed.

(** X5. Deleting twice is deleting once, and two deletes commute: the state
    and the store end the same. *)
Theorem delete_idempotent_commutes i j sw :
  step (Delete i) (step (Delete i) sw) = step (Delete i) sw
  /\ step (Delete i) (step (Delete j) sw) = step (Delete j) (step (Delete i) sw).
Proof.
  destruct sw as [st w]. unfold step. cbn [handler]. split.
  - rewrite !dispatch_delete. cbn [entries activeJob elapsed jobInput notesInput].
    rewrite filter_filter_same. f_equal.
    destruct w. unfold with_storage. cbn. now rewrite insert_insert_eq.
  - rewrite !dispatch_delete. cbn [entries activeJob elapsed jobInput notesInput].
    rewrite (filter_filter_comm (fun e => negb (bool_decide (id e = i)))).
    f_equal. destruct w. unfold with_storage. cbn.
    now rewrite !insert_insert_eq.
Qed.

Lemma filter_length_one (i : jsstring) es :
  NoDup (List.map id es) -> i ∈ List.map id es ->
  S (length (List.filter (fun e => negb (bool_decide (id e = i))) es)) = length es.
Proof.
  induction es as [|e es IH]; cbn [List.map]; intros Hnd Hin.
  - apply elem_of_nil in Hin. contradiction.
  - apply NoDup_cons in Hnd as [Hnot Hnd]. cbn [List.filter length].
    destruct (decide (id e = i)) as [Heq|Hne].
    + rewrite bool_decide_eq_true_2 by exact Heq. cbn [negb]. f_equal.
      subst i. clear IH Hin. induction es as [|e' es IH]; [reflexivity|].
      cbn [List.map] in Hnot, Hnd. apply not_elem_of_cons in Hnot as [Hne Hnot].
      apply NoDup_cons in Hnd as [_ Hnd]. cbn [List.filter].
      rewrite bool_decide_eq_false_2 by congruence. cbn [negb length].
      f_equal. now apply IH.
    + rewrite bool_decide_eq_false_2 by exact Hne. cbn [negb length]. f_equal.
      apply IH; [exact Hnd|]. apply elem_of_cons in Hin as [?|Hin]; congruence.
Qed.

(** X6. When the identifiers of the entries are pairwise distinct, the delete
    of the identifier of an entry removes that entry and no other. *)
Theorem delete_removes_one e st w :
  NoDup (List.map id (entries st)) -> In e (entries st) ->
  let st' := fst (step (Delete (id e)) (st, w)) in
  S (length (entries st')) = length (entries st)
  /\ ~ In e (entries st')
  /\ (forall e', In e' (entries st) -> e' <> e -> In e' (entries st')).
Proof.
  intros Hnd He st'.
  assert (Hst' : entries st' =
            List.filter (fun x => negb (bool_decide (id x = id e))) (entries st)).
  { unfold st', step. cbn [handler]. now rewrite dispatch_delete. }
  split; [|split].
  - rewrite Hst'. apply filter_length_one; [exact Hnd|].
    apply list_elem_of_In, in_map, He.
  - rewrite Hst'. intros Hin. apply filter_In in Hin as [_ Hin].
    rewrite bool_decide_eq_true_2 in Hin by reflexivity. discriminate.
  - intros e' He' Hne. rewrite Hst'. apply filter_In. split; [exact He'|].
    apply negb_true_iff, bool_decide_eq_false. intros Hid. apply Hne.
    clear -Hnd He He' Hid.
    induction (entries st) as [|x l IH]; [contradiction|].
    cbn [List.map] in Hnd. apply NoDup_cons in Hnd as [Hnot Hnd].
    destruct He as [->|He], He' as [->|He']; auto.
    + exfalso. apply Hnot. rewrite <- Hid. apply list_elem_of_In, in_map, He'.
    + exfalso. apply Hnot. rewrite Hid. apply list_elem_of_In, in_map, He.
Qed.

(** ** Where entries come from *)

(** X7. The list of entries grows only when a session is running and the
    event is a stop or a start: the new entry is that session, closed at
    the reading of the clock.  In particular no event makes an entry when
    no session is running. *)
Theorem entry_only_from_session ev st w :
  (length (entries st) < length (entries (fst (step ev (st, w)))))%nat ->
  exists a,
    activeJob st = Some a
    /\ (ev = Stop \/ (ev = Start /\ trim (jobInput st) <> []))
    /\ entries (fst (step ev (st, w)))
       = closed_entry a (clock w (reads w)) (uuids w (drawn w)) (notesInput st)
         :: entries st.
Proof.
  unfold step. destruct ev as [| |i| |s|s|]; cbn [handler].
  - destruct (trim (jobInput st)) as [|c job] eqn:Hjob.
    { rewrite dispatch_start_blank by assumption. cbn [fst]. lia. }
    destruct (activeJob st) as [a|] eqn:Hact.
    + rewrite (dispatch_start_running st w a Hact) by (rewrite Hjob; discriminate).
      intros _. exists a. split; [reflexivity|].
      split; [right; split; [reflexivity | discriminate] | reflexivity].
    + rewrite (dispatch_start_idle st w Hact) by (rewrite Hjob; discriminate).
      cbn [fst entries]. lia.
  - destruct (activeJob st) as [a|] eqn:Hact.
    + rewrite (dispatch_stop_running st w a Hact). intros _. exists a.
      split; [reflexivity|]. split; [left; reflexivity | reflexivity].
    + rewrite (dispatch_stop_idle st w Hact). cbn [fst entries]. lia.
  - rewrite dispatch_delete. cbn [fst entries]. intros H.
    pose proof (sublist_length _ _ (filter_sublist
      (fun e => negb (bool_decide (id e = i))) (entries st))). lia.
  - destruct (answers w (asked w)) eqn:Hans.
    + rewrite (dispatch_clear_confirmed st w Hans). cbn [fst entries length]. lia.
    + rewrite (dispatch_clear_declined st w Hans). cbn [fst]. lia.
  - rewrite dispatch_type_job. cbn [fst entries]. lia.
  - rewrite dispatch_type_notes. cbn [fst entries]. lia.
  - destruct (activeJob st) as [a|] eqn:Hact.
    + rewrite (dispatch_interval_running st w a Hact). cbn [fst entries]. lia.
    + rewrite (dispatch_interval_idle st w Hact). cbn [fst]. lia.
Qed.

(** ** The session after an event *)

(** X8. The transitions of the session: a start with a job number opens a
    session of that job, trimmed, at the reading of the clock that follows
    the closing of the previous session; a stop and a confirmed clear
    leave no session; nothing else changes the session. *)
Theorem session_after ev st w :
  activeJob (fst (step ev (st, w))) =
    match ev with
    | Start =>
        if startDisabled st then activeJob st
        else Some {| activeJobNumber := trim (jobInput st);
                     activeStartTimestamp :=
                       clock w (if isRunning st then S (reads w) else reads w) |}
    | Stop => None
    | ClearAll => if answers w (asked w) then None else activeJob st
    | Delete _ | TypeJob _ | TypeNotes _ | Interval => activeJob st
    end.
Proof.
  unfold step, startDisabled, isRunning.
  destruct ev as [| |i| |s|s|]; cbn [handler].
  - destruct (trim (jobInput st)) as [|c job] eqn:Hjob.
    { rewrite dispatch_start_blank by assumption. reflexivity. }
    destruct (activeJob st) as [a|] eqn:Hact.
    + rewrite (dispatch_start_running st w a Hact) by (rewrite Hjob; discriminate).
      rewrite Hjob. reflexivity.
    + rewrite (dispatch_start_idle st w Hact) by (rewrite Hjob; discriminate).
      rewrite Hjob. reflexivity.
  - destruct (activeJob st) as [a|] eqn:Hact.
    + now rewrite (dispatch_stop_running st w a Hact).
    + now rewrite (dispatch_stop_idle st w Hact).
  - now rewrite dispatch_delete.
  - destruct (answers w (asked w)) eqn:Hans.
    + now rewrite (dispatch_clear_confirmed st w Hans).
    + now rewrite (dispatch_clear_declined st w Hans).
  - now rewrite dispatch_type_job.
  - now rewrite dispatch_type_notes.
  - destruct (activeJob st) as [a|] eqn:Hact.
    + rewrite (dispatch_interval_running st w a Hact). exact Hact.
    + now rewrite (dispatch_interval_idle st w Hact).
Qed.

(** ** The controls and the handlers *)

(** X9. The start button is disabled exactly when a start would change
    nothing, and a session is running (the stop button is shown) exactly
    when a stop makes an entry. *)
Theorem controls_match_handlers st w :
  (startDisabled st = true <-> step Start (st, w) = (st, w))
  /\ (isRunning st = true <->
      length (entries (fst (step Stop (st, w)))) = S (length (entries st))).
Proof.
  unfold step, startDisabled, isRunning. cbn [handler]. split; split.
  - intros H. apply dispatch_start_blank.
    destruct (trim (jobInput st)); [reflexivity | discriminate].
  - intros H. destruct (trim (jobInput st)) as [|c job] eqn:Hjob; [reflexivity|].
    exfalso. destruct (activeJob st) as [a|] eqn:Hact.
    + rewrite (dispatch_start_running st w a Hact) in H
        by (rewrite Hjob; discriminate).
      apply (f_equal (fun sw => length (entries (fst sw)))) in H.
      cbn in H. lia.
    + rewrite (dispatch_start_idle st w Hact) in H by (rewrite Hjob; discriminate).
      apply (f_equal (fun sw => activeJob (fst sw))) in H. cbn in H. congruence.
  - destruct (activeJob st) as [a|] eqn:Hact; [|discriminate]. intros _.
    now rewrite (dispatch_stop_running st w a Hact).
  - destruct (activeJob st) as [a|] eqn:Hact; [reflexivity|].
    rewrite (dispatch_stop_idle st w Hact). cbn [fst entries]. lia.
Qed.

(** ** Invariants of the runs *)

Lemma run_invariant (P : State * World -> Prop) :
  (forall ev sw, P sw -> P (step ev sw)) ->
  forall evs sw, P sw -> P (run evs sw).
Proof.
  intros Hstep evs. induction evs as [|ev evs IH]; intros sw Hsw; [exact Hsw|].
  rewrite run_cons. apply IH, Hstep, Hsw.
Qed.





(** ** The live timer *)

(** X12. A tick of the interval sets the reading to the whole seconds between
    the start of the session and the clock, and touches nothing else:
    entries, session, form and store are as before.  When the clock does
    not go back between two ticks, the reading does not go down. *)
Theorem interval_sets_reading st w a :
  activeJob st = Some a ->
  let sw1 := step Interval (st, w) in
  let sw2 := step Interval sw1 in
  elapsed (fst sw1) = (clock w (reads w) - activeStartTimestamp a) / 1000
  /\ elapsed (fst sw2) = (clock w (S (reads w)) - activeStartTimestamp a) / 1000
  /\ entries (fst sw2) = entries st /\ activeJob (fst sw2) = activeJob st
  /\ jobInput (fst sw2) = jobInput st /\ notesInput (fst sw2) = notesInput st
  /\ localStorage (snd sw2) = localStorage w
  /\ (clock w (reads w) <= clock w (S (reads w)) ->
      elapsed (fst sw1) <= elapsed (fst sw2)).
Proof.
  intros Ha sw1 sw2. unfold sw2, sw1, step. cbn [handler].
  rewrite (dispatch_interval_running st w a Ha).
  rewrite (dispatch_interval_running _ _ a) by exact Ha.
  cbn. repeat split; try reflexivity.
  intros Hclock. apply Z.div_le_mono; lia.
Qed.

(** ** Job numbers and notes *)

Lemma closed_entry_tidy a now uuid note :
  activeJobNumber a <> [] -> trimmed (activeJobNumber a) ->
  tidy_entry (closed_entry a now uuid note).
Proof.
  intros Hne Htr. unfold tidy_entry, closed_entry, trimmed. cbn.
  repeat split; auto. apply trim_idem.
Qed.

Lemma step_tidy ev st w : tidy st -> tidy (fst (step ev (st, w))).
Proof.
  unfold tidy, step. intros [Hes Ha].
  destruct ev as [| |i| |s|s|]; cbn [handler].
  - destruct (trim (jobInput st)) as [|c job] eqn:Hjob.
    { rewrite dispatch_start_blank by assumption. now split. }
    assert (Hnew : c :: job <> [] /\ trimmed (c :: job)).
    { split; [discriminate|]. unfold trimmed. rewrite <- Hjob. apply trim_idem. }
    destruct (activeJob st) as [a|] eqn:Hact.
    + rewrite (dispatch_start_running st w a Hact) by (rewrite Hjob; discriminate).
      cbn. rewrite Hjob. split.
      * constructor; [|exact Hes].
        destruct (Ha a eq_refl). now apply closed_entry_tidy.
      * intros a' Ha'. injection Ha' as <-. exact Hnew.
    + rewrite (dispatch_start_idle st w Hact) by (rewrite Hjob; discriminate).
      cbn. rewrite Hjob. split; [exact Hes|].
      intros a' Ha'. injection Ha' as <-. exact Hnew.
  - destruct (activeJob st) as [a|] eqn:Hact.
    + rewrite (dispatch_stop_running st w a Hact). cbn. split; [|discriminate].
      constructor; [|exact Hes]. destruct (Ha a eq_refl).
      now apply closed_entry_tidy.
    + rewrite (dispatch_stop_idle st w Hact). cbn. split; [exact Hes|discriminate].
  - rewrite dispatch_delete. cbn. split; [|exact Ha].
    rewrite Forall_forall in *. intros e He.
    apply Hes. apply list_elem_of_In in He. apply filter_In in He as [He _].
    now apply list_elem_of_In.
  - destruct (answers w (asked w)) eqn:Hans.
    + rewrite (dispatch_clear_confirmed st w Hans). cbn.
      split; [constructor | discriminate].
    + rewrite (dispatch_clear_declined st w Hans). now split.
  - rewrite dispatch_type_job. now split.
  - rewrite dispatch_type_notes. now split.
  - destruct (activeJob st) as [a|] eqn:Hact.
    + rewrite (dispatch_interval_running st w a Hact). cbn. rewrite Hact.
      now split.
    + rewrite (dispatch_interval_idle st w Hact). cbn. rewrite Hact. now split.
Qed.

(** X13. Whatever is typed in the form, the job numbers that reach the session
    and the entries are not empty and have no white space around them,
    and the notes of the entries have none around them either: every
    event keeps a state of that kind so. *)
Theorem job_numbers_and_notes_trimmed evs st w :
  tidy st -> tidy (fst (run evs (st, w))).
Proof.
  intros Hst.
  apply (run_invariant (fun sw => tidy (fst sw))); [|exact Hst].
  intros ev [st0 w0]. apply step_tidy.
Qed.

(** ** Identifiers *)

Lemma filter_ids_notin (f : Entry -> bool) (x : jsstring) es :
  x ∉ List.map id es -> x ∉ List.map id (List.filter f es).
Proof.
  intros Hx Hin. apply Hx. apply list_elem_of_In in Hin.
  apply in_map_iff in Hin as (e & <- & He). apply filter_In in He as [He _].
  apply list_elem_of_In, in_map, He.
Qed.

Lemma filter_ids_NoDup (f : Entry -> bool) es :
  NoDup (List.map id es) -> NoDup (List.map id (List.filter f es)).
Proof.
  induction es as [|e es IH]; cbn [List.map List.filter]; [auto|].
  intros Hnd. apply NoDup_cons in Hnd as [Hnot Hnd].
  destruct (f e); cbn [List.map]; [|auto].
  apply NoDup_cons. split; [now apply filter_ids_notin | auto].
Qed.

Lemma fresh_ids_prepend st w e st' w' :
  fresh_ids (st, w) ->
  entries st' = e :: entries st -> id e = uuids w (drawn w) ->
  uuids w' = uuids w -> drawn w' = S (drawn w) ->
  fresh_ids (st', w').
Proof.
  intros (Hnd & Hnew & Hinj) Hes Hid Hu Hd. unfold fresh_ids in *. cbn in *.
  rewrite Hes, Hu, Hd. cbn [List.map]. rewrite Hid. split; [|split].
  - apply NoDup_cons. split; [apply Hnew; lia | exact Hnd].
  - intros k Hk. apply not_elem_of_cons. split.
    + apply not_eq_sym, Hinj. lia.
    + apply Hnew. lia.
  - intros k k' Hk. apply Hinj. lia.
Qed.

Lemma fresh_ids_same st w st' w' :
  fresh_ids (st, w) ->
  entries st' = entries st -> uuids w' = uuids w -> drawn w' = drawn w ->
  fresh_ids (st', w').
Proof.
  unfold fresh_ids. cbn. intros H Hes Hu Hd. now rewrite Hes, Hu, Hd.
Qed.

Lemma step_fresh_ids ev sw : fresh_ids sw -> fresh_ids (step ev sw).
Proof.
  destruct sw as [st w]. unfold step. intros Hf.
  destruct ev as [| |i| |s|s|]; cbn [handler].
  - destruct (trim (jobInput st)) as [|c job] eqn:Hjob.
    { now rewrite dispatch_start_blank. }
    destruct (activeJob st) as [a|] eqn:Hact.
    + rewrite (dispatch_start_running st w a Hact) by (rewrite Hjob; discriminate).
      eapply fresh_ids_prepend; [exact Hf | reflexivity..].
    + rewrite (dispatch_start_idle st w Hact) by (rewrite Hjob; discriminate).
      eapply fresh_ids_same; [exact Hf | reflexivity..].
  - destruct (activeJob st) as [a|] eqn:Hact.
    + rewrite (dispatch_stop_running st w a Hact).
      eapply fresh_ids_prepend; [exact Hf | reflexivity..].
    + rewrite (dispatch_stop_idle st w Hact).
      eapply fresh_ids_same; [exact Hf | reflexivity..].
  - rewrite dispatch_delete. destruct Hf as (Hnd & Hnew & Hinj).
    unfold fresh_ids. cbn in *. split; [|split].
    + now apply filter_ids_NoDup.
    + intros k Hk. apply filter_ids_notin. now apply Hnew.
    + exact Hinj.
  - destruct (answers w (asked w)) eqn:Hans.
    + rewrite (dispatch_clear_confirmed st w Hans).
      destruct Hf as (Hnd & Hnew & Hinj). split; [|split]; cbn.
      * constructor.
      * intros k _. apply not_elem_of_nil.
      * exact Hinj.
    + rewrite (dispatch_clear_declined st w Hans).
      eapply fresh_ids_same; [exact Hf | reflexivity..].
  - rewrite dispatch_type_job.
    eapply fresh_ids_same; [exact Hf | reflexivity..].
  - rewrite dispatch_type_notes.
    eapply fresh_ids_same; [exact Hf | reflexivity..].
  - destruct (activeJob st) as [a|] eqn:Hact.
    + rewrite (dispatch_interval_running st w a Hact).
      eapply fresh_ids_same; [exact Hf | reflexivity..].
    + rewrite (dispatch_interval_idle st w Hact).
      eapply fresh_ids_same; [exact Hf | reflexivity..].
Qed.

(** X14. When the generator never repeats an identifier nor gives one that an
    entry has already, the identifiers of the entries stay pairwise
    distinct through every run of events. *)
Theorem identifiers_stay_distinct evs sw :
  fresh_ids sw ->
  fresh_ids (run evs sw) /\ NoDup (List.map id (entries (fst (run evs sw)))).
Proof.
  intros Hf. assert (H : fresh_ids (run evs sw)).
  { apply run_invariant; [|exact Hf]. intros ev sw0. apply step_fresh_ids. }
  split; [exact H | apply H].
Qed.

(** ** Today and the order of the entries *)

Section TodayProperties.

Context {platform : Platform}.

(** X15. Being of the same day as the reference instant is symmetric and
    transitive, and an instant is of its own day exactly when the platform
    gives it a year, a month and a day: an instant out of the range of
    [Date] is of no day, not even its own. *)
Theorem isToday_partial_equivalence :
  (forall a b, isToday a b = true -> isToday b a = true)
  /\ (forall a b c, isToday a b = true -> isToday b c = true -> isToday a c = true)
  /\ (forall a, isToday a a = true <->
        is_Some (getFullYear a) /\ is_Some (getMonth a) /\ is_Some (getDate a))
  /\ (forall a b, isToday a b = true -> isToday a a = true /\ isToday b b = true).
Proof.
  assert (Hsym : forall a b, isToday a b = true -> isToday b a = true).
  { intros a b. rewrite !isToday_spec. unfold same_local_day.
    intros (H1 & H2 & H3 & E1 & E2 & E3). rewrite E1, E2, E3. auto 10. }
  assert (Htrans : forall a b c,
             isToday a b = true -> isToday b c = true -> isToday a c = true).
  { intros a b c. rewrite !isToday_spec. unfold same_local_day.
    intros (H1 & H2 & H3 & E1 & E2 & E3) (_ & _ & _ & F1 & F2 & F3).
    rewrite F1, F2, F3, E1, E2, E3. auto 10. }
  split; [exact Hsym|]. split; [exact Htrans|]. split.
  - intros a. rewrite isToday_spec. unfold same_local_day. tauto.
  - intros a b H. split.
    + exact (Htrans a b a H (Hsym a b H)).
    + exact (Htrans b a b (Hsym a b H) H).
Qed.

(** X16. The entries of today are those of the list that start on the day of
    the reference instant, in the order of the list; filtering them again
    changes nothing. *)
Theorem todayEntries_selects now es :
  sublist (todayEntries now es) es
  /\ (forall e, In e (todayEntries now es) <->
                In e es /\ same_local_day now (startTimestamp e))
  /\ todayEntries now (todayEntries now es) = todayEntries now es.
Proof.
  unfold todayEntries. split; [apply filter_sublist|]. split.
  - intros e. rewrite filter_In, isToday_spec. reflexivity.
  - induction es as [|e es IH]; [reflexivity|]. cbn [List.filter].
    destruct (isToday now (startTimestamp e)) eqn:Ht; [|exact IH].
    cbn [List.filter]. now rewrite Ht, IH.
Qed.



(** X18. A stop adds the seconds of the session to the total of the day on
    which the session started: the total of the day of the stop gains
    them when the session started on that day, and nothing when it
    started on another day (before midnight). *)
Theorem stop_adds_to_day_of_start now st w a :
  activeJob st = Some a ->
  let st' := fst (step Stop (st, w)) in
  let secs := (clock w (reads w) - activeStartTimestamp a) / 1000 in
  dailyTotal now (entries st') =
    if isToday now (activeStartTimestamp a)
    then secs + dailyTotal now (entries st)
    else dailyTotal now (entries st).
Proof.
  intros Ha st' secs. unfold st', step. cbn [handler].
  rewrite (dispatch_stop_running st w a Ha). cbn [fst entries].
  rewrite dailyTotal_cons. reflexivity.
Qed.

End TodayProperties.

(** ** The summary and the order of the entries *)







Section SummaryOrder.

Context {platform : Platform}.


End SummaryOrder.

(** ** The properties above, on sample states *)

Lemma delete_removes_one_witness :
  NoDup (List.map id (entries Scenario.logged))
  /\ In Scenario.first (entries Scenario.logged)
  /\ S (length (entries (fst (step (Delete (id Scenario.first))
                                   (Scenario.logged, Sample.world ∅)))))
     = length (entries Scenario.logged).
Proof.
  assert (Hnd : NoDup (List.map id (entries Scenario.logged))).
  { apply (bool_decide_unpack _). vm_compute. reflexivity. }
  assert (Hin : In Scenario.first (entries Scenario.logged))
    by (right; left; reflexivity).
  split; [exact Hnd|]. split; [exact Hin|].
  exact (proj1 (delete_removes_one Scenario.first Scenario.logged
                  (Sample.world ∅) Hnd Hin)).
Defined.

Lemma entry_only_from_session_witness :
  (length (entries Sample.running)
   < length (entries (fst (step Stop (Sample.running, Sample.world ∅)))))%nat
  /\ exists a,
       activeJob Sample.running = Some a
       /\ (Stop = Stop \/ (Stop = Start /\ trim (jobInput Sample.running) <> []))
       /\ entries (fst (step Stop (Sample.running, Sample.world ∅)))
          = closed_entry a (clock (Sample.world ∅) (reads (Sample.world ∅)))
                         (uuids (Sample.world ∅) (drawn (Sample.world ∅)))
                         (notesInput Sample.running)
            :: entries Sample.running.
Proof.
  assert (H : (length (entries Sample.running)
     < length (entries (fst (step Stop (Sample.running, Sample.world ∅)))))%nat)
    by (vm_compute; lia).
  split; [exact H|].
  exact (entry_only_from_session Stop Sample.running (Sample.world ∅) H).
Defined.

Lemma interval_sets_reading_witness :
  activeJob Sample.running
    = Some {| activeJobNumber := lit "JOB-1"; activeStartTimestamp := 1699999940000 |}
  /\ elapsed (fst (step Interval (Sample.running, Sample.world ∅))) = 60
  /\ elapsed (fst (step Interval (step Interval (Sample.running, Sample.world ∅))))
     = 120.
Proof.
  split; [reflexivity|].
  destruct (interval_sets_reading Sample.running (Sample.world ∅)
              {| activeJobNumber := lit "JOB-1";
                 activeStartTimestamp := 1699999940000 |} eq_refl)
    as (H1 & H2 & _).
  split; [rewrite H1 | rewrite H2]; reflexivity.
Defined.

Lemma job_numbers_and_notes_trimmed_witness :
  tidy Scenario.fresh
  /\ tidy (fst (run Scenario.session (Scenario.fresh, Sample.world ∅))).
Proof.
  assert (H : tidy Scenario.fresh).
  { split; [constructor | discriminate]. }
  split; [exact H|].
  exact (job_numbers_and_notes_trimmed Scenario.session Scenario.fresh
           (Sample.world ∅) H).
Defined.

Lemma sample_uuids_differ (k k' : nat) :
  (k < k')%nat -> uuids (Sample.world ∅) k <> uuids (Sample.world ∅) k'.
Proof.
  intros Hk Heq. cbn [uuids Sample.world] in Heq.
  apply app_inv_head, number_units_inj in Heq. lia.
Qed.

Lemma identifiers_stay_distinct_witness :
  fresh_ids (Scenario.fresh, Sample.world ∅)
  /\ NoDup (List.map id
              (entries (fst (run Scenario.session (Scenario.fresh, Sample.world ∅))))).
Proof.
  assert (H : fresh_ids (Scenario.fresh, Sample.world ∅)).
  { split; [constructor|]. split.
    - intros k _. apply not_elem_of_nil.
    - intros k k' Hk. apply sample_uuids_differ. lia. }
  split; [exact H|].
  exact (proj2 (identifiers_stay_distinct Scenario.session
                  (Scenario.fresh, Sample.world ∅) H)).
Defined.


Lemma stop_adds_to_day_of_start_witness :
  activeJob Sample.running
    = Some {| activeJobNumber := lit "JOB-1"; activeStartTimestamp := 1699999940000 |}
  /\ @dailyTotal Sample.platform Sample.later_that_day
       (entries (fst (step Stop (Sample.running, Sample.world ∅))))
     = 60.
Proof.
  split; [reflexivity|].
  rewrite (@stop_adds_to_day_of_start Sample.platform Sample.later_that_day
             Sample.running (Sample.world ∅)
             {| activeJobNumber := lit "JOB-1";
                activeStartTimestamp := 1699999940000 |} eq_refl).
  vm_compute. reflexivity.
Defined.


